(** * DynaCal: the date/time parser and the calendar-file encoder

    A shallow embedding of [src/utils/dateParser.js],
    [src/utils/icsGenerator.js], the link to Google Calendar of
    [src/utils/calendarLinks.js] and the functions of the scraper and the
    popup that work on strings and records, with the built-ins they call
    (regular-expression matching, [parseInt], [Date], [String] methods,
    [URLSearchParams]) modelled next to them.

    Conventions.
    - A JavaScript string is the list of its UTF-16 code units, each a
      number in [N].
    - A JavaScript number that the code computes is an integer or NaN:
      [option Z], with [None] for NaN.
    - A [Date] holds its time value, the milliseconds since the epoch in
      UTC, or is invalid. The time zone of the machine is the function
      [LocalTZA] of ECMAScript: the constructor goes through it from the
      local fields to the time value, and the getters go back.
    - What a call reads from its environment (the time zone, the clock,
      the random generator) is an argument of the function. *)

From Stdlib Require Import ZArith NArith Lia String Ascii DecimalString DecimalZ.
From stdpp Require Import gmap list.
From Equations Require Import Equations.

Open Scope Z_scope.

(** ** Strings *)

(** An ASCII literal as a string of code units. *)
Definition str (s : string) : list N :=
  map N_of_ascii (list_ascii_of_string s).

(** [s.substring(from, to)] for [from <= to]. *)
Definition substring (s : list N) (from to : nat) : list N :=
  take (to - from) (drop from s).

(** [s.substring(from)] *)
Definition substring_from (s : list N) (from : nat) : list N :=
  drop from s.

(** [parts.join(sep)] *)
Fixpoint join (sep : list N) (parts : list (list N)) : list N :=
  match parts with
  | [] => []
  | [p] => p
  | p :: ps => p ++ sep ++ join sep ps
  end.

(** [s.replace(/c/g, by)] for a pattern that is one literal character. *)
Definition replace_all (c : N) (by_ : list N) (s : list N) : list N :=
  flat_map (λ x, if (x =? c)%N then by_ else [x]) s.

Definition upper_unit (c : N) : N :=
  if ((97 <=? c) && (c <=? 122))%N then (c - 32)%N else c.

Definition lower_unit (c : N) : N :=
  if ((65 <=? c) && (c <=? 90))%N then (c + 32)%N else c.

(** [s.toUpperCase()] and [s.toLowerCase()] on the ASCII range. Every call
    in the sources applies them to text matched by [\w+] or by [(AM|PM)],
    which lies in that range. *)
Definition toUpperCase (s : list N) : list N := map upper_unit s.
Definition toLowerCase (s : list N) : list N := map lower_unit s.

(** ** Character classes of the regular expressions *)

Definition between (lo hi c : N) : bool := ((lo <=? c) && (c <=? hi))%N.

(** [\d] *)
Definition is_digit (c : N) : bool := between 48 57 c.

(** [\w]: [A-Za-z0-9_] *)
Definition is_word (c : N) : bool :=
  between 97 122 c || between 65 90 c || between 48 57 c || (c =? 95)%N.

(** [\s]: the WhiteSpace and LineTerminator code points. *)
Definition is_space (c : N) : bool :=
  between 9 13 c || (c =? 32)%N || (c =? 160)%N || (c =? 5760)%N
  || between 8192 8202 c || (c =? 8232)%N || (c =? 8233)%N
  || (c =? 8239)%N || (c =? 8287)%N || (c =? 12288)%N || (c =? 65279)%N.

(** [[–-]]: the en-dash U+2013 or the hyphen-minus. *)
Definition is_dash (c : N) : bool := (c =? 8211)%N || (c =? 45)%N.

Definition is_char (a : N) (c : N) : bool := (c =? a)%N.

(** ** Regular expressions

    Both patterns of [dateParser.js] have the shape
    [^ item item ... item $], where an item is a character class with a
    greedy quantifier or an alternation of literal words, possibly inside a
    capturing group. [exec] is the backtracking matcher of ECMAScript on
    that shape: a greedy item first takes as many characters as it can and
    gives them back one at a time while the rest of the pattern fails;
    alternatives are tried from left to right. The anchors make the match
    start at index 0 and end at the end of the input, so [s.match(re)] is
    [exec] and its result lists the capture groups 1, 2, ... in order. *)

Inductive atom : Type :=
| Class (cls : N → bool) (lo : nat) (hi : option nat)
| Words (alts : list (list N)).

Record item : Type := Item { capturing : bool; body : atom }.

(** Canonicalize of the [i] flag. It maps a non-ASCII code unit to a
    non-ASCII one, so on comparisons with the ASCII literals of the
    patterns it is the upper-casing of [a-z]. The classes [\w], [\d],
    [\s] and [[–-]] match the same code units with and without the flag. *)
Definition canonicalize (c : N) : N := upper_unit c.

Fixpoint run (cls : N → bool) (s : list N) : nat :=
  match s with
  | c :: s' => if cls c then S (run cls s') else O
  | [] => O
  end.

Definition greedy (cls : N → bool) (hi : option nat) (s : list N) : nat :=
  match hi with
  | Some h => Nat.min h (run cls s)
  | None => run cls s
  end.

Fixpoint ci_prefix (w s : list N) : bool :=
  match w, s with
  | [], _ => true
  | a :: w', c :: s' =>
      (canonicalize a =? canonicalize c)%N && ci_prefix w' s'
  | _ :: _, [] => false
  end.

Definition keep (cap : bool) (seg : list N) (caps : list (list N)) :
  list (list N) :=
  if cap then seg :: caps else caps.

(** Try the lengths [n], [n-1], ..., [lo] in that order. *)
Fixpoint backoff {A} (try : nat → option A) (lo n : nat) : option A :=
  match try n with
  | Some r => Some r
  | None =>
      match n with
      | O => None
      | S n' => if (lo <=? n')%nat then backoff try lo n' else None
      end
  end.

Fixpoint first_alt {A} (try : list N → option A) (alts : list (list N)) :
  option A :=
  match alts with
  | [] => None
  | w :: ws =>
      match try w with
      | Some r => Some r
      | None => first_alt try ws
      end
  end.

Fixpoint exec (p : list item) (s : list N) : option (list (list N)) :=
  match p with
  | [] => match s with [] => Some [] | _ :: _ => None end
  | Item cap (Class cls lo hi) :: p' =>
      let g := greedy cls hi s in
      if (lo <=? g)%nat then
        backoff (λ n, keep cap (take n s) <$> exec p' (drop n s)) lo g
      else None
  | Item cap (Words alts) :: p' =>
      first_alt
        (λ w, if ci_prefix w s then
                keep cap (take (length w) s) <$> exec p' (drop (length w) s)
              else None)
        alts
  end.

(** The language of a pattern, stated without reference to the matcher:
    the input splits into one segment per item. *)
Definition within (hi : option nat) (n : nat) : Prop :=
  match hi with Some h => (n ≤ h)%nat | None => True end.

Inductive Matches : list item → list N → list (list N) → Prop :=
| Matches_end : Matches [] [] []
| Matches_class cap cls lo hi p seg rest caps :
    Forall (λ c, cls c = true) seg →
    (lo ≤ length seg)%nat →
    within hi (length seg) →
    Matches p rest caps →
    Matches (Item cap (Class cls lo hi) :: p) (seg ++ rest) (keep cap seg caps)
| Matches_words cap alts p w seg rest caps :
    w ∈ alts →
    map canonicalize w = map canonicalize seg →
    Matches p rest caps →
    Matches (Item cap (Words alts) :: p) (seg ++ rest) (keep cap seg caps).

(** A pattern in which no item can give a character to its successor. *)
Definition may_start (p : list item) (c : N) : bool :=
  match p with
  | [] => false
  | Item _ (Class cls lo _) :: _ =>
      match lo with O => true | S _ => cls c end
  | Item _ (Words alts) :: _ =>
      existsb (λ w, match w with
                    | [] => true
                    | a :: _ => (canonicalize a =? canonicalize c)%N
                    end) alts
  end.

Fixpoint Unambiguous (p : list item) : Prop :=
  match p with
  | [] => True
  | Item _ (Class cls lo hi) :: p' =>
      (hi = Some lo ∨ ∀ c, cls c = true → may_start p' c = false)
      ∧ Unambiguous p'
  | Item _ (Words alts) :: p' =>
      (∀ w1 w2, w1 ∈ alts → w2 ∈ alts → length w1 = length w2)
      ∧ Unambiguous p'
  end.

(** Pattern building blocks. *)
Definition one (cls : N → bool) : item := Item false (Class cls 1 (Some 1%nat)).
Definition many (cls : N → bool) : item := Item false (Class cls 0 None).
Definition many1 (cls : N → bool) : item := Item false (Class cls 1 None).
Definition group (i : item) : item := Item true (body i).
Definition digits (lo hi : nat) : item := Item false (Class is_digit lo (Some hi)).
Definition meridiem : item := Item false (Words [str "AM"; str "PM"]).

(** [/^(\d{1,2}):(\d{2})\s*(AM|PM)$/i] *)
Definition timePattern : list item :=
  [ group (digits 1 2); one (is_char 58); group (digits 2 2);
    many is_space; group meridiem ].

(** [/^(?:\w+),\s+(\w+)\s+(\d{1,2}),\s+(\d{1,2}):(\d{2})\s*[–-]\s*(\d{1,2}):(\d{2})\s*(AM|PM)\s+(\w+)$/i] *)
Definition eventPattern : list item :=
  [ many1 is_word; one (is_char 44); many1 is_space;
    group (many1 is_word); many1 is_space;
    group (digits 1 2); one (is_char 44); many1 is_space;
    group (digits 1 2); one (is_char 58); group (digits 2 2);
    many is_space; one is_dash; many is_space;
    group (digits 1 2); one (is_char 58); group (digits 2 2);
    many is_space; group meridiem; many1 is_space;
    group (many1 is_word) ].


(** ** Numbers and [parseInt] *)

(** [===], [!==], [<], [>] and [+] on numbers; a comparison with NaN is
    false and NaN is absorbing for [+]. *)
Definition num_eq (a b : option Z) : bool :=
  match a, b with Some x, Some y => x =? y | _, _ => false end.
Definition num_neq (a b : option Z) : bool := negb (num_eq a b).
Definition num_lt (a b : option Z) : bool :=
  match a, b with Some x, Some y => x <? y | _, _ => false end.
Definition num_gt (a b : option Z) : bool := num_lt b a.
Definition num_add (a b : option Z) : option Z :=
  match a, b with Some x, Some y => Some (x + y) | _, _ => None end.

(** The value of a string of decimal digits. *)
Definition decimal_value (ds : list N) : Z :=
  fold_left (λ acc c, 10 * acc + (Z.of_N c - 48)) ds 0.

(** [parseInt(s, 10)]: leading white space is skipped, one sign is read,
    then the longest prefix of decimal digits; NaN when that is empty. *)
Definition parseInt (s : list N) : option Z :=
  let s1 := drop (run is_space s) s in
  let '(sign, s2) :=
    match s1 with
    | c :: r =>
        if (c =? 45)%N then (-1, r)
        else if (c =? 43)%N then (1, r)
        else (1, s1)
    | [] => (1, s1)
    end in
  match take (run is_digit s2) s2 with
  | [] => None
  | ds => Some (sign * decimal_value ds)
  end.

(** [n.toString()] and template interpolation of an integer or NaN: the
    decimal digits, after a minus sign for a negative number. (Numbers
    from 10^21 on are written with an exponent; no year and no clock value
    is that large.) *)
Definition number_toString (n : option Z) : list N :=
  match n with
  | Some z => str (NilZero.string_of_int (Z.to_int z))
  | None => str "NaN"
  end.

(** [s.padStart(2, '0')] *)
Definition padStart2 (s : list N) : list N :=
  replicate (2 - length s) 48%N ++ s.

(** ** Dates: the time arithmetic of ECMAScript (section 21.4.1) *)

Definition msPerDay : Z := 86400000.
Definition msPerHour : Z := 3600000.
Definition msPerMinute : Z := 60000.
Definition msPerSecond : Z := 1000.

Definition Day (t : Z) : Z := t / msPerDay.

Definition DaysInYear (y : Z) : Z :=
  if negb (y mod 4 =? 0) then 365
  else if negb (y mod 100 =? 0) then 366
  else if negb (y mod 400 =? 0) then 365
  else 366.

Definition DayFromYear (y : Z) : Z :=
  365 * (y - 1970) + (y - 1969) / 4 - (y - 1901) / 100 + (y - 1601) / 400.

Definition TimeFromYear (y : Z) : Z := msPerDay * DayFromYear y.

(** The year of a day number: the largest [y] with [DayFromYear y <= d].
    The mean length of a year puts it within one of [1970 + 400 d / 146097]. *)
Definition YearFromDay (d : Z) : Z :=
  let y0 := 1970 + (400 * d) / 146097 in
  if DayFromYear (y0 + 1) <=? d then y0 + 1
  else if DayFromYear y0 <=? d then y0
  else y0 - 1.

Definition YearFromTime (t : Z) : Z := YearFromDay (Day t).

(** 1 in a leap year, 0 otherwise. *)
Definition LeapOfYear (y : Z) : Z := if DaysInYear y =? 366 then 1 else 0.
Definition InLeapYear (t : Z) : Z := LeapOfYear (YearFromTime t).

Definition DayWithinYear (t : Z) : Z := Day t - DayFromYear (YearFromTime t).

(** The day within the year on which month [m] (0 to 11) starts; 12 gives
    the length of the year. *)
Definition month_start (leap m : Z) : Z :=
  match m with
  | 0 => 0
  | 1 => 31
  | 2 => 59 + leap
  | 3 => 90 + leap
  | 4 => 120 + leap
  | 5 => 151 + leap
  | 6 => 181 + leap
  | 7 => 212 + leap
  | 8 => 243 + leap
  | 9 => 273 + leap
  | 10 => 304 + leap
  | 11 => 334 + leap
  | _ => 365 + leap
  end.

Definition MonthFromTime (t : Z) : Z :=
  let d := DayWithinYear t in
  let l := InLeapYear t in
  if d <? 31 then 0
  else if d <? 59 + l then 1
  else if d <? 90 + l then 2
  else if d <? 120 + l then 3
  else if d <? 151 + l then 4
  else if d <? 181 + l then 5
  else if d <? 212 + l then 6
  else if d <? 243 + l then 7
  else if d <? 273 + l then 8
  else if d <? 304 + l then 9
  else if d <? 334 + l then 10
  else 11.

Definition DateFromTime (t : Z) : Z :=
  DayWithinYear t - month_start (InLeapYear t) (MonthFromTime t) + 1.

Definition HourFromTime (t : Z) : Z := (t / msPerHour) mod 24.
Definition MinFromTime (t : Z) : Z := (t / msPerMinute) mod 60.
Definition SecFromTime (t : Z) : Z := (t / msPerSecond) mod 60.

Definition MakeTime (hour min sec ms : Z) : Z :=
  hour * msPerHour + min * msPerMinute + sec * msPerSecond + ms.

(** [MakeDay]: the day number of the first of month [month mod 12] in year
    [year + month / 12], moved by [date - 1] days. *)
Definition MakeDay (year month date : Z) : Z :=
  let ym := year + month / 12 in
  let mn := month mod 12 in
  DayFromYear ym + month_start (LeapOfYear ym) mn + date - 1.

Definition MakeDate (day time : Z) : Z := day * msPerDay + time.

Definition TimeClip (t : Z) : option Z :=
  if Z.abs t <=? 8640000000000000 then Some t else None.

(** The time zone of the machine. [LocalTZA t true] is the offset from
    UTC, in milliseconds, in force at the instant [t]; [LocalTZA t false]
    is the offset taken for the local time [t]. The two differ around a
    change of the clock: a local time that the change skips has an offset
    all the same, and the instant taken for it shows another local time. *)
Definition timeZone : Type := Z → bool → Z.

Definition LocalTime (LocalTZA : timeZone) (t : Z) : Z := t + LocalTZA t true.
Definition UTC (LocalTZA : timeZone) (t : Z) : Z := t - LocalTZA t false.

(** [new Date(year, month, day, hours, minutes)]: a NaN argument gives an
    invalid date, a year from 0 to 99 means 1900 + year, fields out of
    their range carry into the next larger field, the fields are those of
    the local time, and a time value beyond 8.64e15 ms gives an invalid
    date. *)
Definition newDate (LocalTZA : timeZone)
  (year month day hours minutes : option Z) : option Z :=
  y ← year; m ← month; dt ← day; h ← hours; mi ← minutes;
  let yr := if (0 <=? y) && (y <=? 99) then 1900 + y else y in
  TimeClip (UTC LocalTZA (MakeDate (MakeDay yr m dt) (MakeTime h mi 0 0))).

(** The getters read the fields of the local time of the time value. *)
Definition getFullYear (LocalTZA : timeZone) (d : option Z) : option Z :=
  (λ t, YearFromTime (LocalTime LocalTZA t)) <$> d.
Definition getMonth (LocalTZA : timeZone) (d : option Z) : option Z :=
  (λ t, MonthFromTime (LocalTime LocalTZA t)) <$> d.
Definition getDate (LocalTZA : timeZone) (d : option Z) : option Z :=
  (λ t, DateFromTime (LocalTime LocalTZA t)) <$> d.
Definition getHours (LocalTZA : timeZone) (d : option Z) : option Z :=
  (λ t, HourFromTime (LocalTime LocalTZA t)) <$> d.
Definition getMinutes (LocalTZA : timeZone) (d : option Z) : option Z :=
  (λ t, MinFromTime (LocalTime LocalTZA t)) <$> d.
Definition getSeconds (LocalTZA : timeZone) (d : option Z) : option Z :=
  (λ t, SecFromTime (LocalTime LocalTZA t)) <$> d.

(** ** JavaScript values, as far as the argument check looks at them *)

Inductive value : Type :=
| VUndefined
| VNull
| VBoolean (b : bool)
| VNumber (n : option Z)
| VString (s : list N)
| VObject.

(** ToBoolean *)
Definition truthy (v : value) : bool :=
  match v with
  | VUndefined | VNull => false
  | VBoolean b => b
  | VNumber n => match n with Some z => negb (z =? 0) | None => false end
  | VString s => match s with [] => false | _ :: _ => true end
  | VObject => true
  end.

(** [typeof v === 'string'] *)
Definition is_string (v : value) : bool :=
  match v with VString _ => true | _ => false end.

(** ** dateParser.js *)

Record clockTime : Type := ClockTime { hours : option Z; minutes : option Z }.

Definition parseTime (timeStr : list N) : option clockTime :=
  match exec timePattern timeStr with
  | Some [m1; m2; m3] =>
      let hours := parseInt m1 in
      let minutes := parseInt m2 in
      let period := toUpperCase m3 in
      if num_lt hours (Some 1) || num_gt hours (Some 12) then None
      else
        let hours :=
          if bool_decide (period = str "PM") && num_neq hours (Some 12)
          then num_add hours (Some 12)
          else if bool_decide (period = str "AM") && num_eq hours (Some 12)
          then Some 0
          else hours in
        Some (ClockTime hours minutes)
  | _ => None
  end.

Definition pad (n : option Z) : list N := padStart2 (number_toString n).

Definition formatISODate (LocalTZA : timeZone) (date : option Z) : list N :=
  let year := getFullYear LocalTZA date in
  let month := pad (num_add (getMonth LocalTZA date) (Some 1)) in
  let day := pad (getDate LocalTZA date) in
  let hours := pad (getHours LocalTZA date) in
  let minutes := pad (getMinutes LocalTZA date) in
  let seconds := pad (getSeconds LocalTZA date) in
  number_toString year ++ month ++ day ++ str "T" ++ hours ++ minutes ++ seconds.

(** The object literal [MONTHS]. A key of at most three characters names
    no property inherited from [Object.prototype], so a lookup sees the
    twelve own properties only. *)
Definition MONTHS : gmap (list N) Z :=
  list_to_map
    [ (str "jan", 0); (str "feb", 1); (str "mar", 2); (str "apr", 3);
      (str "may", 4); (str "jun", 5); (str "jul", 6); (str "aug", 7);
      (str "sep", 8); (str "oct", 9); (str "nov", 10); (str "dec", 11) ].

Record eventDateTime : Type := EventDateTime {
  startDate : option Z;
  endDate : option Z;
  timezone : list N
}.

Definition parseEventDateTime (LocalTZA : timeZone) (dateTimeStr : value)
  (referenceYear : Z) : option eventDateTime :=
  if negb (truthy dateTimeStr) || negb (is_string dateTimeStr) then None
  else
    match dateTimeStr with
    | VString text =>
        match exec eventPattern text with
        | Some [monthStr; dayStr; startHourStr; startMinStr;
                endHourStr; endMinStr; period; timezone] =>
            let monthKey := substring (toLowerCase monthStr) 0 3 in
            match MONTHS !! monthKey with
            | None => None
            | Some month =>
                let day := parseInt dayStr in
                let startHour := parseInt startHourStr in
                let startMin := parseInt startMinStr in
                let endHour := parseInt endHourStr in
                let endMin := parseInt endMinStr in
                let isPM := bool_decide (toUpperCase period = str "PM") in
                let endHour :=
                  if isPM && num_neq endHour (Some 12)
                  then num_add endHour (Some 12)
                  else if negb isPM && num_eq endHour (Some 12)
                  then Some 0
                  else endHour in
                let startHour :=
                  if isPM && num_neq startHour (Some 12)
                  then num_add startHour (Some 12)
                  else if negb isPM && num_eq startHour (Some 12)
                  then Some 0
                  else startHour in
                let year :=
                  if month <? 11 then referenceYear + 1 else referenceYear in
                let startDate :=
                  newDate LocalTZA (Some year) (Some month) day startHour
                    startMin in
                let endDate :=
                  newDate LocalTZA (Some year) (Some month) day endHour
                    endMin in
                Some (EventDateTime startDate endDate (toUpperCase timezone))
            end
        | _ => None
        end
    | _ => None
    end.

(** ** icsGenerator.js *)

Definition CRLF : list N := [13%N; 10%N].

Definition escapeICSText (text : list N) : list N :=
  replace_all 10 (str "\n")
    (replace_all 44 (str "\,")
       (replace_all 59 (str "\;")
          (replace_all 92 (str "\\") text))).

(** The [while] loop of [foldLine]: the lines pushed after the first. *)
Equations? continuation (remaining : list N) : list (list N)
  by wf (length remaining) lt :=
  continuation [] := [];
  continuation (c :: r) :=
    (str " " ++ substring (c :: r) 0 74)
      :: continuation (substring_from (c :: r) 74).
Proof.
  change (length (drop 73 r) < S (length r))%nat.
  rewrite length_drop. lia.
Qed.

Definition foldLine (line : list N) : list N :=
  if (length line <=? 75)%nat then line
  else
    join CRLF (substring line 0 75 :: continuation (substring_from line 75)).

(** ToInt32 and [x << k] *)
Definition ToInt32 (z : Z) : Z :=
  let m := z mod 4294967296 in
  if 2147483648 <=? m then m - 4294967296 else m.

Definition shl (x k : Z) : Z := ToInt32 (Z.shiftl (ToInt32 x) k).

(** [n.toString(36)] for an integer. *)
Definition digit36 (d : Z) : N :=
  if d <? 10 then Z.to_N (48 + d) else Z.to_N (87 + d).

Fixpoint radix36 (fuel : nat) (n : Z) (acc : list N) : list N :=
  match fuel with
  | O => acc
  | S fuel' =>
      if n <? 36 then digit36 n :: acc
      else radix36 fuel' (n / 36) (digit36 (n mod 36) :: acc)
  end.

Definition toString36 (z : Z) : list N :=
  let n := Z.abs z in
  let ds := radix36 (S (Z.to_nat (Z.log2 n))) n [] in
  if z <? 0 then str "-" ++ ds else ds.

Record event : Type := Event {
  event_title : list N;
  event_startDate : option Z;
  event_endDate : option Z;
  event_location : option (list N);
  event_url : option (list N);
  event_description : option (list N)
}.

(** What one call reads from its environment: [Date.now()], the text
    [Math.random().toString(36).substring(2, 11)] (at most nine base-36
    digits of a random fraction, taken as given) and [new Date()]. *)
Record environment : Type := Environment {
  Date_now : Z;
  random_digits : list N;
  current_Date : option Z
}.

(** The [reduce] over the characters of the title. The accumulator grows
    by less than 2^32 per character, so it is an exact integer of the
    number type for every title shorter than two million characters. *)
Definition titleHash (title : list N) : Z :=
  fold_left (λ acc char, (shl acc 5 - acc) + Z.of_N char) title 0.

Definition generateUID (ev : event) (env : environment) : list N :=
  let timestamp := Date_now env in
  let random := random_digits env in
  number_toString (Some timestamp) ++ str "-" ++ random ++ str "-"
    ++ toString36 (titleHash (event_title ev)) ++ str "@dynamous.ai".

(** An optional field is written when it is present and not empty. *)
Definition optional_line (name : list N) (render : list N → list N)
  (field : option (list N)) : list (list N) :=
  match field with
  | Some (c :: v) => [name ++ render (c :: v)]
  | _ => []
  end.

Definition generateICS_lines (LocalTZA : timeZone) (ev : event)
  (env : environment) : list (list N) :=
  [ str "BEGIN:VCALENDAR";
    str "VERSION:2.0";
    str "PRODID:-//Circle Calendar Exporter//Dynamous AI//EN";
    str "CALSCALE:GREGORIAN";
    str "METHOD:PUBLISH";
    str "BEGIN:VEVENT";
    str "UID:" ++ generateUID ev env;
    str "DTSTAMP:" ++ formatISODate LocalTZA (current_Date env) ++ str "Z";
    str "DTSTART:" ++ formatISODate LocalTZA (event_startDate ev);
    str "DTEND:" ++ formatISODate LocalTZA (event_endDate ev);
    str "SUMMARY:" ++ escapeICSText (event_title ev) ]
  ++ optional_line (str "LOCATION:") escapeICSText (event_location ev)
  ++ optional_line (str "URL:") id (event_url ev)
  ++ optional_line (str "DESCRIPTION:") escapeICSText (event_description ev)
  ++ [ str "END:VEVENT"; str "END:VCALENDAR" ].

Definition generateICS (LocalTZA : timeZone) (ev : event)
  (env : environment) : list N :=
  join CRLF (map foldLine (generateICS_lines LocalTZA ev env)).

(** The physical lines of a text: [text.split('\r\n')]. *)
Fixpoint physical_lines_from (cur : list N) (s : list N) : list (list N) :=
  match s with
  | [] => [rev cur]
  | c :: s' =>
      match s' with
      | d :: s'' =>
          if ((c =? 13) && (d =? 10))%N
          then rev cur :: physical_lines_from [] s''
          else physical_lines_from (c :: cur) s'
      | [] => physical_lines_from (c :: cur) s'
      end
  end.

Definition physical_lines (s : list N) : list (list N) :=
  physical_lines_from [] s.

Definition en_dash : list N := [8211%N].

(** The number of days of month [m] (0 to 11) in year [y]. *)
Definition days_in_month (y m : Z) : Z :=
  month_start (LeapOfYear y) (m + 1) - month_start (LeapOfYear y) m.

(** ** Vocabulary of the statements below *)

(** The tokens that the capture groups of the two patterns hold. *)
Definition digit_token (lo hi : nat) (ds : list N) : Prop :=
  Forall (λ c, is_digit c = true) ds ∧ (lo ≤ length ds ≤ hi)%nat.

Definition word_token (w : list N) : Prop :=
  Forall (λ c, is_word c = true) w ∧ w ≠ [].

Definition meridiem_token (m : list N) : Prop :=
  toUpperCase m = str "AM" ∨ toUpperCase m = str "PM".

(** The grammar of [eventPattern], written out: the text of a range is a
    weekday, a month name, a day, two clock times around a dash, a marker
    and a timezone, with the white space between them. *)
Record rangeText : Type := RangeText {
  weekday : list N;
  gap1 : list N;
  monthName : list N;
  gap2 : list N;
  dayDigits : list N;
  gap3 : list N;
  startHourDigits : list N;
  startMinDigits : list N;
  gap4 : list N;
  dash : N;
  gap5 : list N;
  endHourDigits : list N;
  endMinDigits : list N;
  gap6 : list N;
  markerText : list N;
  gap7 : list N;
  zone : list N
}.

Definition render (t : rangeText) : list N :=
  weekday t ++ str "," ++ gap1 t ++ monthName t ++ gap2 t
  ++ dayDigits t ++ str "," ++ gap3 t
  ++ startHourDigits t ++ str ":" ++ startMinDigits t
  ++ gap4 t ++ [dash t] ++ gap5 t
  ++ endHourDigits t ++ str ":" ++ endMinDigits t
  ++ gap6 t ++ markerText t ++ gap7 t ++ zone t.

Definition captures (t : rangeText) : list (list N) :=
  [ monthName t; dayDigits t; startHourDigits t; startMinDigits t;
    endHourDigits t; endMinDigits t; markerText t; zone t ].

Definition spaces (lo : nat) (ws : list N) : Prop :=
  Forall (λ c, is_space c = true) ws ∧ (lo ≤ length ws)%nat.

Definition well_formed (t : rangeText) : Prop :=
  word_token (weekday t) ∧ spaces 1 (gap1 t)
  ∧ word_token (monthName t) ∧ spaces 1 (gap2 t)
  ∧ digit_token 1 2 (dayDigits t) ∧ spaces 1 (gap3 t)
  ∧ digit_token 1 2 (startHourDigits t) ∧ digit_token 2 2 (startMinDigits t)
  ∧ spaces 0 (gap4 t) ∧ is_dash (dash t) = true ∧ spaces 0 (gap5 t)
  ∧ digit_token 1 2 (endHourDigits t) ∧ digit_token 2 2 (endMinDigits t)
  ∧ spaces 0 (gap6 t) ∧ meridiem_token (markerText t)
  ∧ spaces 1 (gap7 t) ∧ word_token (zone t).

(** The hour conversions and the year rule in the words of the
    specification. *)
Definition spec_start_hour (pm : bool) (h : Z) : Z :=
  if pm then (if h =? 12 then 12 else h + 12)
  else (if h =? 12 then 0 else h).

Definition spec_end_hour (pm : bool) (h : Z) : Z :=
  if pm && negb (h =? 12) then h + 12
  else if negb pm && (h =? 12) then 0
  else h.

Definition spec_year (month referenceYear : Z) : Z :=
  if month =? 11 then referenceYear else referenceYear + 1.

(** The marker of a range, read without regard to case. *)
Definition marker (pm : bool) : list N := if pm then str "PM" else str "AM".

(** The month of a token by its first three characters, compared without
    regard to case with the twelve abbreviations in calendar order. *)
Definition month_abbreviations : list (list N) :=
  [ str "jan"; str "feb"; str "mar"; str "apr"; str "may"; str "jun";
    str "jul"; str "aug"; str "sep"; str "oct"; str "nov"; str "dec" ].

Definition same_ignoring_case (a b : list N) : bool :=
  bool_decide (map canonicalize a = map canonicalize b).

Fixpoint index_where {A} (P : A → bool) (l : list A) (i : Z) : option Z :=
  match l with
  | [] => None
  | x :: l' => if P x then Some i else index_where P l' (i + 1)
  end.

Definition month_of_token (token : list N) : option Z :=
  index_where (same_ignoring_case (take 3 token)) month_abbreviations 0.

(** The result that [parseEventDateTime] builds from its fields. *)
Definition range_of (LocalTZA : timeZone) (year month day : Z)
  (startHour startMin endHour endMin : Z) (tz : list N) : eventDateTime :=
  EventDateTime
    (newDate LocalTZA (Some year) (Some month) (Some day) (Some startHour)
       (Some startMin))
    (newDate LocalTZA (Some year) (Some month) (Some day) (Some endHour)
       (Some endMin))
    tz.

(** The local time value of a calendar date and a clock time: what the
    constructor of a date computes before it goes to UTC. *)
Definition local_value (year month day hours minutes : Z) : Z :=
  MakeDate (MakeDay year month day) (MakeTime hours minutes 0 0).

(** The offset that the zone takes for a local time is within a day, as
    ECMAScript asks of every zone. *)
Definition offset_within_a_day (LocalTZA : timeZone) (t : Z) : Prop :=
  Z.abs (LocalTZA t false) ≤ msPerDay.

(** The zone keeps a local time: the instant taken for it shows this local
    time again. Only a local time that a change of the clock skips is not
    kept. *)
Definition kept_by_zone (LocalTZA : timeZone) (t : Z) : Prop :=
  offset_within_a_day LocalTZA t
  ∧ LocalTime LocalTZA (UTC LocalTZA t) = t.

(** A sample zone: the Eastern time of the United States in 2025 and 2026,
    five hours behind UTC, and four from the second Sunday of March, 2:00,
    to the first Sunday of November, 2:00. A local time that the change of
    March skips and one that the change of November repeats have the
    offset from before the change. *)
Definition New_York : timeZone := λ t isUTC,
  let within (a b : Z) := (a <=? t) && (t <? b) in
  let summer :=
    if isUTC then
      within (local_value 2025 2 9 7 0) (local_value 2025 10 2 6 0)
      || within (local_value 2026 2 8 7 0) (local_value 2026 10 1 6 0)
    else
      within (local_value 2025 2 9 3 0) (local_value 2025 10 2 2 0)
      || within (local_value 2026 2 8 3 0) (local_value 2026 10 1 2 0) in
  if summer then -4 * msPerHour else -5 * msPerHour.

(** Folding in the words of the specification: a line of at most 75
    characters is one physical line; a longer one is its first 75
    characters, then one line for every 74 characters that follow, a space
    and these characters, the last line with what is left. *)
Definition spec_fold (line : list N) : list (list N) :=
  if (length line <=? 75)%nat then [line]
  else
    take 75 line
      :: map (λ k, 32%N :: take 74 (drop (75 + 74 * k) line))
           (seq 0 ((length line - 75 + 73) / 74)).

(** Escaping in one pass over the text, character by character. *)
Definition escape_unit (c : N) : list N :=
  if (c =? 92)%N then str "\\"
  else if (c =? 59)%N then str "\;"
  else if (c =? 44)%N then str "\,"
  else if (c =? 10)%N then str "\n"
  else [c].

(** Sample inputs for the statements about the encoder. *)
Definition sample_event : event :=
  Event (str "Community Hangout")
    (newDate New_York (Some 2025) (Some 11) (Some 15) (Some 13) (Some 0))
    (newDate New_York (Some 2025) (Some 11) (Some 15) (Some 14) (Some 0))
    (Some (str "Virtual"))
    (Some (str "https://community.dynamous.ai/c/live-events/community-hangout-123"))
    (Some (str "This is a very long description that should be folded according to RFC 5545 requirements for line length limits in ICS files.")).

Definition sample_environment : environment :=
  Environment 1765803600000 (str "k3j5x0a9z")
    (newDate New_York (Some 2025) (Some 11) (Some 15) (Some 9) (Some 5)).

Definition sample_line : list N :=
  str "DESCRIPTION:This is a very long description that should be folded according to RFC 5545 requirements for line length limits in ICS files.".

(** ** The rest of dateParser.js *)




(** [n] written with exactly [k] decimal digits. *)
Fixpoint fixed_width (k : nat) (n : Z) : list N :=
  match k with
  | O => []
  | S k' => fixed_width k' (n / 10) ++ [Z.to_N (48 + n mod 10)]
  end.

(** ** Reading a calendar file back *)

(** Undoing the escapes of a text value, as a reader of the file does:
    backslash-n (or backslash-N) is a line feed and a backslash before any
    other character stands for that character. *)
Fixpoint unescapeICSText (s : list N) : list N :=
  match s with
  | [] => []
  | c :: s' =>
      if (c =? 92)%N then
        match s' with
        | d :: s'' =>
            (if ((d =? 110) || (d =? 78))%N then 10%N else d)
              :: unescapeICSText s''
        | [] => [c]
        end
      else c :: unescapeICSText s'
  end.

(** Unfolding, as a reader of the file does: a CRLF that a space or a tab
    follows is removed together with that character. *)
Fixpoint unfoldLines (s : list N) : list N :=
  match s with
  | [] => []
  | c :: s' =>
      match s' with
      | d :: e :: s'' =>
          if ((c =? 13) && (d =? 10) && ((e =? 32) || (e =? 9)))%N
          then unfoldLines s''
          else c :: unfoldLines s'
      | _ => c :: unfoldLines s'
      end
  end.

(** The characters of a unique identifier: digits, [a-z], and the
    punctuation of its pattern. *)
Definition is_base36 (c : N) : bool := is_digit c || between 97 122 c.

Definition is_uid_char (c : N) : bool :=
  is_base36 c || (c =? 45)%N || (c =? 64)%N || (c =? 46)%N.

(** ** calendarLinks.js *)

(** [URLSearchParams] keeps a list of name-value pairs. [set] replaces the
    value of the first pair of that name and removes the others, or
    appends a pair. *)
Fixpoint params_set (name value : list N) (l : list (list N * list N)) :
  list (list N * list N) :=
  match l with
  | [] => [(name, value)]
  | (n, v) :: l' =>
      if bool_decide (n = name)
      then (name, value) :: filter (λ p, p.1 ≠ name) l'
      else (n, v) :: params_set name value l'
  end.

Definition is_high_surrogate (c : N) : bool := between 55296 56319 c.
Definition is_low_surrogate (c : N) : bool := between 56320 57343 c.

(** The code points of a string as [URLSearchParams] reads it: a surrogate
    pair is one code point and a lone surrogate becomes U+FFFD. *)
Fixpoint code_points (s : list N) : list N :=
  match s with
  | [] => []
  | c :: s' =>
      if is_high_surrogate c then
        match s' with
        | d :: s'' =>
            if is_low_surrogate d
            then (65536 + (c - 55296) * 1024 + (d - 56320))%N
                   :: code_points s''
            else 65533%N :: code_points s'
        | [] => [65533%N]
        end
      else if is_low_surrogate c then 65533%N :: code_points s'
      else c :: code_points s'
  end.

(** The UTF-8 bytes of a code point. *)
Definition utf8 (cp : N) : list N :=
  if (cp <? 128)%N then [cp]
  else if (cp <? 2048)%N then [192 + cp / 64; 128 + cp mod 64]%N
  else if (cp <? 65536)%N
  then [224 + cp / 4096; 128 + (cp / 64) mod 64; 128 + cp mod 64]%N
  else [240 + (cp / 262144) mod 8; 128 + (cp / 4096) mod 64;
        128 + (cp / 64) mod 64; 128 + cp mod 64]%N.

Definition hex_digit (n : N) : N := if (n <? 10)%N then (48 + n)%N else (55 + n)%N.

(** The bytes that the application/x-www-form-urlencoded serializer
    leaves as they are: letters, digits, [*], [-], [.] and [_]. *)
Definition is_form_safe (b : N) : bool :=
  is_digit b || between 65 90 b || between 97 122 b
  || (b =? 42)%N || (b =? 45)%N || (b =? 46)%N || (b =? 95)%N.

(** One byte, serialized: a space is a plus sign and an unsafe byte is a
    percent sign and two upper-case hexadecimal digits. *)
Definition form_byte (b : N) : list N :=
  if (b =? 32)%N then [43%N]
  else if is_form_safe b then [b]
  else [37%N; hex_digit ((b / 16) mod 16); hex_digit (b mod 16)].

Definition form_encode (s : list N) : list N :=
  flat_map form_byte (flat_map utf8 (code_points s)).

(** [params.toString()] *)
Definition params_toString (l : list (list N * list N)) : list N :=
  join (str "&")
    (map (λ p, form_encode p.1 ++ str "=" ++ form_encode p.2) l).

(** [if (field) params.set(name, field)] *)
Definition set_if_present (name : list N) (field : option (list N))
  (l : list (list N * list N)) : list (list N * list N) :=
  match field with
  | Some (c :: v) => params_set name (c :: v) l
  | _ => l
  end.

Definition generateGoogleCalendarLink (LocalTZA : timeZone) (ev : event) :
  list N :=
  let baseUrl := str "https://www.google.com/calendar/render" in
  let params := [] in
  let params := params_set (str "action") (str "TEMPLATE") params in
  let params := params_set (str "text") (event_title ev) params in
  let startFormatted := formatISODate LocalTZA (event_startDate ev) in
  let endFormatted := formatISODate LocalTZA (event_endDate ev) in
  let params :=
    params_set (str "dates") (startFormatted ++ str "/" ++ endFormatted)
      params in
  let params := set_if_present (str "location") (event_location ev) params in
  let params :=
    set_if_present (str "details") (event_description ev) params in
  baseUrl ++ str "?" ++ params_toString params.

(** Reading a query value back, as the receiving service does: a plus
    sign is a space and a percent sign with two hexadecimal digits is the
    byte they write. The result is the bytes of the value. *)
Definition hex_value (c : N) : N :=
  if is_digit c then (c - 48)%N
  else if between 65 70 c then (c - 55)%N
  else (c - 87)%N.

Fixpoint form_decode (s : list N) : list N :=
  match s with
  | [] => []
  | c :: s' =>
      if (c =? 43)%N then 32%N :: form_decode s'
      else if (c =? 37)%N then
        match s' with
        | h1 :: h2 :: s'' =>
            (16 * hex_value h1 + hex_value h2)%N :: form_decode s''
        | _ => c :: form_decode s'
        end
      else c :: form_decode s'
  end.

(** The characters that a serialized value can hold. *)
Definition is_form_char (c : N) : bool :=
  is_form_safe c || (c =? 43)%N || (c =? 37)%N.

(** A field that is written when present and not empty. *)
Definition optional_param (name : list N) (field : option (list N)) :
  list N :=
  match field with
  | Some (c :: v) => str "&" ++ name ++ str "=" ++ form_encode (c :: v)
  | _ => []
  end.

(** ** scraper.js *)

(** [url.split('/')] *)
Fixpoint split_slash (s : list N) : list (list N) :=
  match s with
  | [] => [[]]
  | c :: s' =>
      if (c =? 47)%N then [] :: split_slash s'
      else match split_slash s' with
           | part :: parts => (c :: part) :: parts
           | [] => [[c]]
           end
  end.

(** [parts[parts.length - 1]]; [None] is [undefined]. *)
Definition extractSlug (url : list N) : option (list N) :=
  let parts := split_slash url in
  parts !! (length parts - 1)%nat.

(** ** popup.js *)

(** What the scraper gives for one event card; every field is a string. *)
Record scrapedEvent : Type := ScrapedEvent {
  scraped_title : list N;
  scraped_url : list N;
  scraped_dateTimeStr : list N;
  scraped_location : list N;
  scraped_rsvpStatus : list N
}.

(** [s.startsWith(prefix)] *)
Definition startsWith (s prefix : list N) : bool :=
  bool_decide (take (length prefix) s = prefix).

(** [value || fallback] on a string: the empty string is the falsy one. *)
Definition or_else (value fallback : list N) : list N :=
  match value with
  | [] => fallback
  | _ => value
  end.

(** [now] is the time value of [new Date()], which is never invalid.
    [None] is the [TypeError] of reading [parsed.startDate] off [null]. *)
Definition prepareEventForExport (LocalTZA : timeZone) (ev : scrapedEvent)
  (now : Z) : option event :=
  let referenceYear := YearFromTime (LocalTime LocalTZA now) in
  let parsed :=
    parseEventDateTime LocalTZA (VString (scraped_dateTimeStr ev))
      referenceYear in
  let eventUrl :=
    if startsWith (scraped_url ev) (str "http") then scraped_url ev
    else str "https://community.dynamous.ai" ++ scraped_url ev in
  let descriptionParts :=
    [ [55357; 56656]%N ++ str " " ++ scraped_dateTimeStr ev;
      [55357; 56525]%N ++ str " " ++ or_else (scraped_location ev) (str "TBD");
      [55357; 56420]%N ++ str " Host: Cole Medin" ] in
  let descriptionParts :=
    if bool_decide (scraped_rsvpStatus ev = str "going")
    then descriptionParts ++ [ [9989%N] ++ str " RSVP: Going" ]
    else descriptionParts
           ++ [ [9888; 65039]%N ++ str " RSVP: Not yet confirmed" ] in
  let descriptionParts :=
    descriptionParts
      ++ [ []; [55357; 56599]%N ++ str " " ++ eventUrl; []; [8212%N];
           str "Dynamous Community" ] in
  match parsed with
  | None => None
  | Some parsed =>
      Some {| event_title := scraped_title ev;
              event_startDate := startDate parsed;
              event_endDate := endDate parsed;
              event_location := Some (scraped_location ev);
              event_url := Some eventUrl;
              event_description := Some (join [10%N] descriptionParts) |}
  end.

(** [[a-z0-9]] *)
Definition is_slug_char (c : N) : bool := between 97 122 c || is_digit c.

Definition is_dash_or_slug_char (c : N) : bool :=
  is_slug_char c || (c =? 45)%N.

(** [s.replace(/[^a-z0-9]+/g, '-')]: every longest run of other
    characters becomes one dash. [in_run] tells that the character before
    was one of the run. *)
Fixpoint replace_runs (in_run : bool) (s : list N) : list N :=
  match s with
  | [] => []
  | c :: s' =>
      if is_slug_char c then c :: replace_runs false s'
      else if in_run then replace_runs true s'
      else 45%N :: replace_runs true s'
  end.

(** [s.replace(/^-+|-+$/g, '')]: [^-+] takes the dashes at the start, and
    [-+$] matches at the first place from which only dashes are left. *)
Fixpoint drop_leading_dashes (s : list N) : list N :=
  match s with
  | c :: s' => if (c =? 45)%N then drop_leading_dashes s' else s
  | [] => []
  end.

Fixpoint drop_trailing_dashes (s : list N) : list N :=
  match s with
  | [] => []
  | c :: s' =>
      if forallb (λ d, d =? 45)%N s then []
      else c :: drop_trailing_dashes s'
  end.

(** [toLowerCase] on a title is the lower-casing of all of Unicode, which
    the tables of the language give (a Kelvin sign becomes the letter k);
    it is the variable [lower] here. *)
Section slugify.
Variable lower : list N → list N.

Definition slugify (title : list N) : list N :=
  drop_trailing_dashes
    (drop_leading_dashes (replace_runs false (lower title))).
End slugify.

(** A slug holds no two dashes in a row. *)
Fixpoint single_dashes (s : list N) : bool :=
  match s with
  | c :: s' =>
      match s' with
      | d :: _ => negb ((c =? 45)%N && (d =? 45)%N) && single_dashes s'
      | [] => true
      end
  | [] => true
  end.

(** The record of one export, and the two places that hold the records:
    the key [exportedEvents] of [chrome.storage.local], which may be
    missing, and the cache of the popup. *)
Record exportRecord : Type := ExportRecord {
  export_slug : list N;
  export_exportType : list N;
  export_timestamp : Z
}.

Record exports : Type := Exports {
  storage_exportedEvents : option (list exportRecord);
  exportedEventsCache : list exportRecord
}.

(** [result.exportedEvents || []] *)
Definition stored (st : exports) : list exportRecord :=
  default [] (storage_exportedEvents st).

Definition setExportedEvents (events : option (list exportRecord))
  (st : exports) : exports :=
  {| storage_exportedEvents := storage_exportedEvents st;
     exportedEventsCache := default [] events |}.

Definition getExportedEvents (st : exports) : list exportRecord := stored st.

(** One call, from the read of the storage to the end of its write, with
    no other access to the storage in between. [now] is [Date.now()]. *)
Definition trackExport (slug exportType : list N) (now : Z) (st : exports) :
  exports :=
  let exports :=
    stored st ++ [ {| export_slug := slug; export_exportType := exportType;
                      export_timestamp := now |} ] in
  {| storage_exportedEvents := Some exports;
     exportedEventsCache := exports |}.

Definition same_export (slug exportType : list N) (e : exportRecord) : bool :=
  bool_decide (export_slug e = slug)
  && bool_decide (export_exportType e = exportType).

Definition isEventExported (slug exportType : list N) (st : exports) : bool :=
  existsb (same_export slug exportType) (stored st).

Definition isEventExportedSync (slug exportType : list N) (st : exports) :
  bool :=
  existsb (same_export slug exportType) (exportedEventsCache st).

Definition hasAnyExport (slug : list N) (st : exports) : bool :=
  existsb (λ e, bool_decide (export_slug e = slug)) (exportedEventsCache st).

(** * Properties *)

(** ** The matcher and the language of a pattern *)

Lemma backoff_Some {A} (try : nat → option A) lo n r :
  (lo ≤ n)%nat → backoff try lo n = Some r →
  ∃ k, (lo ≤ k ≤ n)%nat ∧ try k = Some r.
Proof.
  induction n as [|n IH]; simpl; intros Hlo H.
  - destruct (try 0%nat) eqn:E; [|done].
    exists 0%nat. split; [lia|congruence].
  - destruct (try (S n)) eqn:E.
    + exists (S n). split; [lia|congruence].
    + destruct (lo <=? n)%nat eqn:L; [|done]. apply Nat.leb_le in L.
      destruct (IH L H) as (k & ? & ?). exists k. split; [lia|done].
Qed.

Lemma backoff_is_Some {A} (try : nat → option A) lo n k :
  (lo ≤ k ≤ n)%nat → is_Some (try k) → is_Some (backoff try lo n).
Proof.
  induction n as [|n IH]; simpl; intros Hk Hs.
  - replace k with 0%nat in Hs by lia. destruct Hs as [r ->]. eauto.
  - destruct (try (S n)) eqn:E; [eauto|].
    destruct (decide (k = S n)) as [->|Hne].
    + rewrite E in Hs. by destruct Hs.
    + assert ((lo <=? n)%nat = true) as -> by (apply Nat.leb_le; lia).
      apply IH; [lia|done].
Qed.

Lemma first_alt_Some {A} (try : list N → option A) alts r :
  first_alt try alts = Some r → ∃ w, w ∈ alts ∧ try w = Some r.
Proof.
  induction alts as [|w ws IH]; simpl; [done|].
  destruct (try w) eqn:E.
  - intros [= <-]. exists w. split; [left|done].
  - intros H. destruct (IH H) as (w' & ? & ?). exists w'. split; [by right|done].
Qed.

Lemma first_alt_is_Some {A} (try : list N → option A) alts w :
  w ∈ alts → is_Some (try w) → is_Some (first_alt try alts).
Proof.
  induction alts as [|a ws IH]; simpl; intros Hin Hs.
  - by apply elem_of_nil in Hin.
  - destruct (try a) eqn:E; [eauto|].
    apply elem_of_cons in Hin as [->|Hin].
    + rewrite E in Hs. by destruct Hs.
    + by apply IH.
Qed.

Lemma run_le_length cls s : (run cls s ≤ length s)%nat.
Proof. induction s as [|c s IH]; simpl; [lia|]. destruct (cls c); lia. Qed.

Lemma run_take cls s n :
  (n ≤ run cls s)%nat → Forall (λ c, cls c = true) (take n s).
Proof.
  revert n. induction s as [|c s IH]; intros n Hn; simpl in *.
  - rewrite take_nil. constructor.
  - destruct n as [|n]; [constructor|]. simpl.
    destruct (cls c) eqn:E; [|lia].
    constructor; [done|]. apply IH. lia.
Qed.

Lemma run_app cls seg rest :
  Forall (λ c, cls c = true) seg → (length seg ≤ run cls (seg ++ rest))%nat.
Proof.
  induction 1 as [|c seg Hc _ IH]; simpl; [lia|]. rewrite Hc. lia.
Qed.

Lemma greedy_le_run cls hi s : (greedy cls hi s ≤ run cls s)%nat.
Proof. destruct hi; simpl; lia. Qed.

Lemma greedy_within cls hi s k : (k ≤ greedy cls hi s)%nat → within hi k.
Proof. destruct hi; simpl; [lia|done]. Qed.

Lemma within_greedy cls hi s k :
  within hi k → (k ≤ run cls s)%nat → (k ≤ greedy cls hi s)%nat.
Proof. destruct hi; simpl; lia. Qed.

Lemma ci_prefix_spec w s :
  ci_prefix w s = true ↔
  (length w ≤ length s)%nat
  ∧ map canonicalize w = map canonicalize (take (length w) s).
Proof.
  revert s. induction w as [|a w IH]; intros [|c s]; simpl.
  - split; [intros _; split; [lia|done]|done].
  - split; [intros _; split; [lia|done]|done].
  - split; [done|]. intros [? _]. lia.
  - rewrite andb_true_iff, N.eqb_eq, IH. split.
    + intros (-> & ? & ->). split; [lia|done].
    + intros (? & [= -> ?]). split; [done|]. split; [lia|done].
Qed.

Theorem exec_sound p : ∀ s caps, exec p s = Some caps → Matches p s caps.
Proof.
  induction p as [|[cap [cls lo hi|alts]] p IH]; intros s caps H; simpl in H.
  - destruct s; [|done]. injection H as <-. constructor.
  - destruct (lo <=? greedy cls hi s)%nat eqn:L; [|done].
    apply Nat.leb_le in L.
    apply backoff_Some in H as (k & Hk & H); [|done].
    destruct (exec p (drop k s)) as [caps'|] eqn:E; [|done].
    simpl in H. injection H as <-.
    pose proof (greedy_le_run cls hi s). pose proof (run_le_length cls s).
    rewrite <- (take_drop k s) at 1.
    constructor; [| | |by apply IH].
    + apply run_take. lia.
    + rewrite length_take. lia.
    + rewrite length_take. apply (greedy_within cls hi s). lia.
  - apply first_alt_Some in H as (w & Hin & H).
    destruct (ci_prefix w s) eqn:P; [|done].
    apply ci_prefix_spec in P as [Hlen Heq].
    destruct (exec p (drop (length w) s)) as [caps'|] eqn:E; [|done].
    simpl in H. injection H as <-.
    rewrite <- (take_drop (length w) s) at 1.
    by eapply Matches_words; [| |apply IH].
Qed.

Theorem exec_complete p s caps :
  Matches p s caps → is_Some (exec p s).
Proof.
  induction 1 as [|cap cls lo hi p seg rest caps Hall Hlo Hhi _ IH
                  |cap alts p w seg rest caps Hin Heq _ IH]; simpl.
  - eauto.
  - pose proof (run_app cls seg rest Hall) as Hrun.
    pose proof (within_greedy cls hi (seg ++ rest) _ Hhi Hrun) as Hg.
    assert ((lo <=? greedy cls hi (seg ++ rest))%nat = true) as ->
      by (apply Nat.leb_le; lia).
    apply (backoff_is_Some _ lo _ (length seg)); [lia|].
    rewrite drop_app_length. destruct IH as [r ->]. simpl. eauto.
  - apply (first_alt_is_Some _ alts w Hin).
    assert (length w = length seg) as Hlen.
    { rewrite <- (length_map canonicalize w), Heq. apply length_map. }
    assert (ci_prefix w (seg ++ rest) = true) as ->.
    { apply ci_prefix_spec. rewrite Hlen, take_app_length, length_app.
      split; [lia|done]. }
    rewrite Hlen, drop_app_length. destruct IH as [r ->]. simpl. eauto.
Qed.

Lemma Matches_nil_inv s caps : Matches [] s caps → s = [] ∧ caps = [].
Proof. by inversion 1. Qed.

Lemma Matches_class_inv cap cls lo hi p s caps :
  Matches (Item cap (Class cls lo hi) :: p) s caps →
  ∃ seg rest caps',
    s = seg ++ rest ∧ caps = keep cap seg caps'
    ∧ Forall (λ c, cls c = true) seg
    ∧ (lo ≤ length seg)%nat ∧ within hi (length seg)
    ∧ Matches p rest caps'.
Proof. inversion 1; subst. eauto 10. Qed.

Lemma Matches_words_inv cap alts p s caps :
  Matches (Item cap (Words alts) :: p) s caps →
  ∃ w seg rest caps',
    s = seg ++ rest ∧ caps = keep cap seg caps'
    ∧ w ∈ alts ∧ map canonicalize w = map canonicalize seg
    ∧ Matches p rest caps'.
Proof. inversion 1; subst. eauto 10. Qed.

Lemma Matches_may_start p c s caps :
  Matches p (c :: s) caps → may_start p c = true.
Proof.
  destruct p as [|[cap [cls lo hi|alts]] p]; intros M; simpl.
  - by apply Matches_nil_inv in M as [? _].
  - apply Matches_class_inv in M as (seg & rest & ? & E & _ & Hall & Hlo & _).
    destruct lo; [done|]. destruct seg as [|c' seg]; simpl in *; [lia|].
    injection E as -> _. by inversion Hall.
  - apply Matches_words_inv in M as (w & seg & rest & ? & E & _ & Hin & Heq & _).
    apply existsb_exists. exists w. split; [by apply list_elem_of_In|].
    destruct w as [|a w]; [done|]. destruct seg as [|c' seg]; [done|].
    simpl in *. injection E as -> _. injection Heq as -> _. apply N.eqb_refl.
Qed.

Lemma app_split_l (a b c d : list N) :
  a ++ b = c ++ d → (length a ≤ length c)%nat → ∃ k, c = a ++ k ∧ b = k ++ d.
Proof.
  revert c. induction a as [|x a IH]; intros c E L; simpl in *.
  - exists c. done.
  - destruct c as [|y c]; simpl in *; [lia|].
    injection E as -> E. destruct (IH c E) as (k & -> & ->); [lia|].
    by exists k.
Qed.

Theorem Matches_unique p :
  Unambiguous p → ∀ s c1 c2, Matches p s c1 → Matches p s c2 → c1 = c2.
Proof.
  induction p as [|[cap [cls lo hi|alts]] p IH]; intros U s c1 c2 M1 M2.
  - apply Matches_nil_inv in M1 as [_ ->]. by apply Matches_nil_inv in M2 as [_ ->].
  - destruct U as [Hfollow U].
    apply Matches_class_inv in M1
      as (seg1 & rest1 & caps1 & -> & -> & A1 & L1 & W1 & R1).
    apply Matches_class_inv in M2
      as (seg2 & rest2 & caps2 & E & -> & A2 & L2 & W2 & R2).
    assert (seg1 = seg2) as ->.
    { destruct Hfollow as [->|Hfollow].
      - simpl in *. assert (length seg1 = length seg2) as Hl by lia.
        by apply app_inj_1 in E as [? _].
      - destruct (Nat.le_gt_cases (length seg1) (length seg2)) as [Hle|Hgt].
        + destruct (app_split_l _ _ _ _ E Hle) as ([|c k] & -> & ->).
          * by rewrite app_nil_r.
          * apply Matches_may_start in R1.
            rewrite Hfollow in R1; [done|].
            rewrite Forall_app, Forall_cons in A2. tauto.
        + destruct (app_split_l _ _ _ _ (eq_sym E) (Nat.lt_le_incl _ _ Hgt))
            as ([|c k] & -> & ->).
          * by rewrite app_nil_r.
          * apply Matches_may_start in R2.
            rewrite Hfollow in R2; [done|].
            rewrite Forall_app, Forall_cons in A1. tauto. }
    apply app_inv_head in E as ->. f_equal. by eapply IH.
  - destruct U as [Hlen U].
    apply Matches_words_inv in M1
      as (w1 & seg1 & rest1 & caps1 & -> & -> & I1 & E1 & R1).
    apply Matches_words_inv in M2
      as (w2 & seg2 & rest2 & caps2 & E & -> & I2 & E2 & R2).
    assert (length seg1 = length seg2) as Hl.
    { rewrite <- (length_map canonicalize seg1), <- E1.
      rewrite <- (length_map canonicalize seg2), <- E2.
      rewrite !length_map. by apply Hlen. }
    apply app_inj_1 in E as [-> ->]; [|done]. f_equal. by eapply IH.
Qed.

(** For an unambiguous pattern the matcher computes the language. *)
Theorem exec_Matches p s caps :
  Unambiguous p → exec p s = Some caps ↔ Matches p s caps.
Proof.
  intros U. split; [apply exec_sound|].
  intros M. destruct (exec_complete _ _ _ M) as [caps' E].
  rewrite E. f_equal. eapply Matches_unique; eauto using exec_sound.
Qed.

Theorem exec_None p s :
  exec p s = None ↔ ∀ caps, ¬ Matches p s caps.
Proof.
  split.
  - intros E caps M. apply exec_complete in M as [? M]. congruence.
  - intros H. destruct (exec p s) as [caps|] eqn:E; [|done].
    apply exec_sound in E. by apply H in E.
Qed.

(** ** The two patterns of the parser are unambiguous *)

Ltac class_facts :=
  unfold is_word, is_space, is_digit, is_dash, is_char, between in *;
  rewrite ?orb_true_iff, ?andb_true_iff, ?orb_false_iff, ?andb_false_iff,
    ?N.leb_le, ?N.leb_gt, ?N.eqb_eq, ?N.eqb_neq in *.

Ltac disjoint_classes :=
  let c := fresh "c" in
  let H := fresh "H" in
  let H' := fresh "H" in
  let E := fresh "E" in
  intros c H; apply not_true_iff_false; intros H'; revert H H';
  change (str "AM") with [65%N; 77%N]; change (str "PM") with [80%N; 77%N];
  cbn [may_start existsb];
  change (canonicalize 65) with 65%N; change (canonicalize 80) with 80%N;
  unfold canonicalize, upper_unit;
  try (destruct ((97 <=? c) && (c <=? 122))%N eqn:E; revert E);
  class_facts; lia.

Lemma timePattern_unambiguous : Unambiguous timePattern.
Proof.
  unfold timePattern, group, digits, one, many, meridiem. cbn [Unambiguous body].
  repeat split; try (by left); try (right; disjoint_classes).
  intros w1 w2. rewrite !elem_of_cons, !elem_of_nil. by intros [->|[->|[]]] [->|[->|[]]].
Qed.

Lemma eventPattern_unambiguous : Unambiguous eventPattern.
Proof.
  unfold eventPattern, group, digits, one, many, many1, meridiem.
  cbn [Unambiguous body].
  repeat split; try (by left); try (right; disjoint_classes).
  intros w1 w2. rewrite !elem_of_cons, !elem_of_nil. by intros [->|[->|[]]] [->|[->|[]]].
Qed.

(** ** [parseInt] on the digit strings that the patterns capture *)

Lemma run_all cls s : Forall (λ c, cls c = true) s → run cls s = length s.
Proof. induction 1 as [|c s Hc _ IH]; simpl; [done|]. by rewrite Hc, IH. Qed.

Lemma digit_not_space c : is_digit c = true → is_space c = false.
Proof.
  intros H. apply not_true_iff_false. intros H'. revert H H'.
  class_facts. lia.
Qed.

Lemma parseInt_digits ds :
  ds ≠ [] → Forall (λ c, is_digit c = true) ds →
  parseInt ds = Some (decimal_value ds).
Proof.
  intros Hne Hall. destruct ds as [|c ds]; [done|].
  pose proof (Forall_inv Hall) as Hc.
  unfold parseInt. cbn [run]. rewrite (digit_not_space c Hc). cbn [drop].
  assert ((c =? 45)%N = false ∧ (c =? 43)%N = false) as [-> ->].
  { revert Hc. class_facts. lia. }
  rewrite (run_all _ _ Hall), firstn_all.
  f_equal. lia.
Qed.

Lemma decimal_value_bounds ds :
  Forall (λ c, is_digit c = true) ds → (length ds ≤ 2)%nat →
  0 ≤ decimal_value ds ≤ 99.
Proof.
  intros Hall Hlen. unfold decimal_value.
  destruct ds as [|a [|b [|? ?]]]; simpl in *; [lia| | |lia].
  - apply Forall_inv in Hall. revert Hall. class_facts. lia.
  - pose proof (Forall_inv Hall) as Ha.
    pose proof (Forall_inv (Forall_inv_tail Hall)) as Hb.
    revert Ha Hb. class_facts. lia.
Qed.

(** ** The calendar arithmetic *)

Lemma DayFromYear_succ y : DayFromYear (y + 1) = DayFromYear y + DaysInYear y.
Proof.
  unfold DayFromYear, DaysInYear.
  repeat match goal with
         | |- context [negb (?a =? ?b)] => destruct (Z.eqb_spec a b); simpl
         end;
    Z.div_mod_to_equations; lia.
Qed.

(** [YearFromDay] meets its specification: the largest year that starts
    on or before the day. *)
Lemma YearFromDay_spec d :
  DayFromYear (YearFromDay d) ≤ d < DayFromYear (YearFromDay d + 1).
Proof.
  unfold YearFromDay, DayFromYear.
  repeat match goal with
         | |- context [?a <=? ?b] => destruct (Z.leb_spec a b)
         end;
    Z.div_mod_to_equations; lia.
Qed.

Lemma YearFromDay_unique d y :
  DayFromYear y ≤ d < DayFromYear (y + 1) → YearFromDay d = y.
Proof.
  unfold YearFromDay, DayFromYear. intros H.
  repeat match goal with
         | |- context [?a <=? ?b] => destruct (Z.leb_spec a b)
         end;
    Z.div_mod_to_equations; lia.
Qed.

Lemma LeapOfYear_range y : 0 ≤ LeapOfYear y ≤ 1.
Proof. unfold LeapOfYear. destruct (_ =? _); lia. Qed.

Lemma DaysInYear_leap y : DaysInYear y = 365 + LeapOfYear y.
Proof.
  unfold LeapOfYear, DaysInYear.
  repeat match goal with
         | |- context [negb (?a =? ?b)] => destruct (Z.eqb_spec a b); simpl
         end; reflexivity.
Qed.

(** A date and a time of day inside their calendar ranges are read back
    from the instant unchanged. *)
Lemma time_fields y m d h mi :
  0 ≤ m ≤ 11 → 1 ≤ d ≤ days_in_month y m → 0 ≤ h ≤ 23 → 0 ≤ mi ≤ 59 →
  let t := MakeDate (MakeDay y m d) (MakeTime h mi 0 0) in
  YearFromTime t = y ∧ MonthFromTime t = m ∧ DateFromTime t = d
  ∧ HourFromTime t = h ∧ MinFromTime t = mi ∧ SecFromTime t = 0.
Proof.
  intros Hm Hd Hh Hmi t.
  pose proof (LeapOfYear_range y) as Hl.
  assert (m / 12 = 0 ∧ m mod 12 = m) as [Hq Hr]
    by (split; [apply Z.div_small|apply Z.mod_small]; lia).
  assert (Day t = DayFromYear y + month_start (LeapOfYear y) m + d - 1) as HD.
  { unfold t, Day, MakeDate, MakeDay, MakeTime, msPerDay, msPerHour,
      msPerMinute, msPerSecond. rewrite Hq, Hr, Z.add_0_r.
    Z.div_mod_to_equations; lia. }
  assert (YearFromTime t = y) as HY.
  { unfold YearFromTime. apply YearFromDay_unique. rewrite HD.
    rewrite DayFromYear_succ, DaysInYear_leap.
    unfold days_in_month in Hd.
    assert (m = 0 ∨ m = 1 ∨ m = 2 ∨ m = 3 ∨ m = 4 ∨ m = 5 ∨ m = 6 ∨ m = 7
            ∨ m = 8 ∨ m = 9 ∨ m = 10 ∨ m = 11) as Hcase by lia.
    destruct Hcase as [->|[->|[->|[->|[->|[->|[->|[->|[->|[->|[->| ->]]]]]]]]]]];
      simpl in *; lia. }
  assert (DayWithinYear t = month_start (LeapOfYear y) m + d - 1) as HW.
  { unfold DayWithinYear. rewrite HY, HD. lia. }
  assert (MonthFromTime t = m) as HM.
  { unfold MonthFromTime, InLeapYear. rewrite HW, HY.
    unfold days_in_month in Hd.
    assert (m = 0 ∨ m = 1 ∨ m = 2 ∨ m = 3 ∨ m = 4 ∨ m = 5 ∨ m = 6 ∨ m = 7
            ∨ m = 8 ∨ m = 9 ∨ m = 10 ∨ m = 11) as Hcase by lia.
    destruct Hcase as [->|[->|[->|[->|[->|[->|[->|[->|[->|[->|[->| ->]]]]]]]]]]];
      simpl in *;
      repeat match goal with
             | |- context [?a <? ?b] => destruct (Z.ltb_spec a b); try lia
             end. }
  repeat split; [done|done| | | |].
  - unfold DateFromTime, InLeapYear. rewrite HW, HY, HM. lia.
  - unfold t, HourFromTime, MakeDate, MakeTime, msPerDay, msPerHour,
      msPerMinute, msPerSecond. Z.div_mod_to_equations; lia.
  - unfold t, MinFromTime, MakeDate, MakeTime, msPerDay, msPerHour,
      msPerMinute, msPerSecond. Z.div_mod_to_equations; lia.
  - unfold t, SecFromTime, MakeDate, MakeTime, msPerDay, msPerHour,
      msPerMinute, msPerSecond. Z.div_mod_to_equations; lia.
Qed.

(** ** What the capture groups hold *)

Ltac invert_item M :=
  first
    [ apply Matches_class_inv in M as (? & ? & ? & ? & ? & ? & ? & ? & M)
    | apply Matches_words_inv in M as (? & ? & ? & ? & ? & ? & ? & ? & M)
    | apply Matches_nil_inv in M as [? ?] ];
  cbn [keep] in *; subst.

Lemma meridiem_words w seg :
  w ∈ [str "AM"; str "PM"] → map canonicalize w = map canonicalize seg →
  meridiem_token seg.
Proof.
  rewrite !elem_of_cons, elem_of_nil. unfold meridiem_token, toUpperCase.
  change canonicalize with upper_unit.
  intros [->|[->|[]]] <-; [by left|by right].
Qed.

Lemma eventPattern_tokens s caps :
  Matches eventPattern s caps →
  ∃ mon dd sh sm eh em mer tz,
    caps = [mon; dd; sh; sm; eh; em; mer; tz] ∧ s ≠ []
    ∧ word_token mon ∧ digit_token 1 2 dd
    ∧ digit_token 1 2 sh ∧ digit_token 2 2 sm
    ∧ digit_token 1 2 eh ∧ digit_token 2 2 em
    ∧ meridiem_token mer ∧ word_token tz.
Proof.
  unfold eventPattern, group, digits, one, many, many1, meridiem. cbn [body].
  intros M. do 22 invert_item M.
  eexists _, _, _, _, _, _, _, _. split; [done|].
  unfold digit_token, word_token, within in *.
  assert (∀ l : list N, (1 ≤ length l)%nat → l ≠ []) as Hne
    by (intros [|??]; simpl; [lia|done]).
  split; [intros [-> _]%app_eq_nil; simpl in *; lia|].
  repeat split; try done; try (by apply Hne).
  match goal with H : _ ∈ _ |- _ => eapply meridiem_words; [exact H|done] end.
Qed.

(** ** [parseEventDateTime] on an input of the grammar *)

Lemma hour_conversion (isPM : bool) (h : Z) :
  (if isPM && num_neq (Some h) (Some 12) then num_add (Some h) (Some 12)
   else if negb isPM && num_eq (Some h) (Some 12) then Some 0
   else Some h)
  = Some (spec_end_hour isPM h).
Proof.
  unfold spec_end_hour, num_neq, num_eq, num_add.
  destruct isPM, (h =? 12); reflexivity.
Qed.

Lemma spec_hours_agree pm h : spec_start_hour pm h = spec_end_hour pm h.
Proof.
  unfold spec_start_hour, spec_end_hour.
  destruct pm, (Z.eqb_spec h 12); simpl; congruence.
Qed.

Lemma digit_token_parseInt lo hi ds :
  (1 ≤ lo)%nat → digit_token lo hi ds → parseInt ds = Some (decimal_value ds).
Proof.
  intros Hlo [Hall Hlen]. apply parseInt_digits; [|done].
  destruct ds; simpl in *; [lia|done].
Qed.

Lemma parseEventDateTime_grammar tza s y mon dd sh sm eh em mer tz :
  Matches eventPattern s [mon; dd; sh; sm; eh; em; mer; tz] →
  parseEventDateTime tza (VString s) y =
  match MONTHS !! substring (toLowerCase mon) 0 3 with
  | None => None
  | Some month =>
      let pm := bool_decide (toUpperCase mer = str "PM") in
      Some (range_of tza (if month <? 11 then y + 1 else y) month
              (decimal_value dd)
              (spec_end_hour pm (decimal_value sh)) (decimal_value sm)
              (spec_end_hour pm (decimal_value eh)) (decimal_value em)
              (toUpperCase tz))
  end.
Proof.
  intros M.
  destruct (eventPattern_tokens _ _ M)
    as (? & ? & ? & ? & ? & ? & ? & ? & [= <- <- <- <- <- <- <- <-] & Hs
        & _ & Hdd & Hsh & Hsm & Heh & Hem & _ & _).
  apply (exec_Matches _ _ _ eventPattern_unambiguous) in M.
  unfold parseEventDateTime. destruct s as [|c s]; [done|].
  cbn [truthy is_string negb orb]. rewrite M.
  destruct (MONTHS !! _) as [month|]; [|done].
  rewrite (digit_token_parseInt _ _ _ (le_n 1) Hdd),
    (digit_token_parseInt _ _ _ (le_n 1) Hsh),
    (digit_token_parseInt _ _ _ (le_S _ _ (le_n 1)) Hsm),
    (digit_token_parseInt _ _ _ (le_n 1) Heh),
    (digit_token_parseInt _ _ _ (le_S _ _ (le_n 1)) Hem).
  rewrite !hour_conversion. reflexivity.
Qed.

Lemma parseEventDateTime_no_grammar tza s y :
  (∀ caps, ¬ Matches eventPattern s caps) →
  parseEventDateTime tza (VString s) y = None.
Proof.
  intros H. apply exec_None in H. unfold parseEventDateTime.
  destruct (negb _ || negb _); [done|]. by rewrite H.
Qed.

(** ** The month table *)

Lemma MONTHS_lookup k :
  MONTHS !! k =
  if decide (str "jan" = k) then Some 0
  else if decide (str "feb" = k) then Some 1
  else if decide (str "mar" = k) then Some 2
  else if decide (str "apr" = k) then Some 3
  else if decide (str "may" = k) then Some 4
  else if decide (str "jun" = k) then Some 5
  else if decide (str "jul" = k) then Some 6
  else if decide (str "aug" = k) then Some 7
  else if decide (str "sep" = k) then Some 8
  else if decide (str "oct" = k) then Some 9
  else if decide (str "nov" = k) then Some 10
  else if decide (str "dec" = k) then Some 11
  else None.
Proof.
  unfold MONTHS. rewrite !list_to_map_cons, list_to_map_nil.
  rewrite !lookup_insert, lookup_empty. reflexivity.
Qed.

Lemma MONTHS_range k month : MONTHS !! k = Some month → 0 ≤ month ≤ 11.
Proof.
  rewrite MONTHS_lookup.
  repeat case_decide; intros [= <-]; lia.
Qed.

Lemma canonicalize_lower x l :
  between 97 122 l = true →
  canonicalize x = canonicalize l ↔ l = lower_unit x.
Proof.
  unfold canonicalize, upper_unit, lower_unit, between.
  intros Hl. rewrite Hl. revert Hl.
  destruct ((97 <=? x) && (x <=? 122))%N eqn:E1;
    destruct ((65 <=? x) && (x <=? 90))%N eqn:E2;
    revert E1 E2; class_facts; lia.
Qed.

Lemma same_ignoring_case_lower k a :
  Forall (λ l, between 97 122 l = true) a →
  same_ignoring_case k a = bool_decide (a = toLowerCase k).
Proof.
  intros Ha. unfold same_ignoring_case, toLowerCase.
  apply bool_decide_ext. revert k.
  induction Ha as [|l a Hl _ IH]; intros [|x k]; simpl; try done.
  split; intros [= H1 H2].
  - f_equal; [by apply (canonicalize_lower x l Hl)|by apply IH].
  - f_equal; [by apply (canonicalize_lower x l Hl)|by apply IH].
Qed.

Lemma substring_take (s : list N) n : substring s 0 n = take n s.
Proof. unfold substring. by rewrite Nat.sub_0_r. Qed.

(** The lookup in [MONTHS] reads the first three characters of the token
    without regard to case. *)
Lemma MONTHS_month_of_token mon :
  MONTHS !! substring (toLowerCase mon) 0 3 = month_of_token mon.
Proof.
  rewrite substring_take. unfold toLowerCase. rewrite firstn_map.
  fold (toLowerCase (take 3 mon)).
  rewrite MONTHS_lookup. unfold month_of_token, month_abbreviations.
  cbn [index_where].
  rewrite !same_ignoring_case_lower
    by (repeat constructor).
  repeat (case_decide;
          [ by rewrite bool_decide_eq_true_2
          | rewrite bool_decide_eq_false_2 by done ]).
  reflexivity.
Qed.

Lemma marker_PM mer pm :
  toUpperCase mer = marker pm → bool_decide (toUpperCase mer = str "PM") = pm.
Proof.
  intros ->. by destruct pm.
Qed.

Lemma month_rule month y :
  0 ≤ month ≤ 11 → (if month <? 11 then y + 1 else y) = spec_year month y.
Proof.
  intros H. unfold spec_year.
  destruct (Z.ltb_spec month 11), (Z.eqb_spec month 11); lia.
Qed.

Lemma spec_end_hour_range pm h : 0 ≤ h ≤ 12 → 0 ≤ spec_end_hour pm h ≤ 23.
Proof.
  intros H. unfold spec_end_hour.
  destruct pm, (Z.eqb_spec h 12); simpl; lia.
Qed.

Lemma local_value_bound y m d h mi :
  100 ≤ y ≤ 275001 → 0 ≤ m ≤ 11 → 0 ≤ d ≤ 99 → 0 ≤ h ≤ 99 → 0 ≤ mi ≤ 99 →
  Z.abs (local_value y m d h mi) ≤ 8640000000000000 - msPerDay.
Proof.
  intros Hy Hm Hd Hh Hmi.
  pose proof (LeapOfYear_range y) as Hl.
  assert (m / 12 = 0 ∧ m mod 12 = m) as [Hq Hr]
    by (split; [apply Z.div_small|apply Z.mod_small]; lia).
  unfold local_value, MakeDate, MakeDay, MakeTime, msPerDay, msPerHour,
    msPerMinute, msPerSecond. rewrite Hq, Hr, Z.add_0_r.
  assert (0 ≤ month_start (LeapOfYear y) m ≤ 335) as Hoff.
  { assert (m = 0 ∨ m = 1 ∨ m = 2 ∨ m = 3 ∨ m = 4 ∨ m = 5 ∨ m = 6 ∨ m = 7
            ∨ m = 8 ∨ m = 9 ∨ m = 10 ∨ m = 11) as Hcase by lia.
    destruct Hcase as [->|[->|[->|[->|[->|[->|[->|[->|[->|[->|[->| ->]]]]]]]]]]];
      simpl in *; lia. }
  unfold DayFromYear. Z.div_mod_to_equations. lia.
Qed.

(** A date built from fields that keep the time value inside its limits
    is valid: its time value is the instant that the zone takes for the
    local time of the fields. *)
Lemma newDate_in_range tza y m d h mi :
  100 ≤ y ≤ 275001 → 0 ≤ m ≤ 11 → 0 ≤ d ≤ 99 → 0 ≤ h ≤ 99 → 0 ≤ mi ≤ 99 →
  offset_within_a_day tza (local_value y m d h mi) →
  newDate tza (Some y) (Some m) (Some d) (Some h) (Some mi)
  = Some (UTC tza (local_value y m d h mi)).
Proof.
  intros Hy Hm Hd Hh Hmi Hoff. unfold newDate. cbn [mbind option_bind].
  assert ((0 <=? y) && (y <=? 99) = false) as ->
    by (apply andb_false_iff; right; apply Z.leb_gt; lia).
  fold (local_value y m d h mi).
  pose proof (local_value_bound y m d h mi Hy Hm Hd Hh Hmi) as Hb.
  unfold TimeClip, UTC.
  assert ((Z.abs (local_value y m d h mi - tza (local_value y m d h mi) false)
           <=? 8640000000000000) = true) as ->; [|done].
  apply Z.leb_le. unfold offset_within_a_day in Hoff. lia.
Qed.

Lemma days_in_month_bound y m : 0 ≤ m ≤ 11 → 28 ≤ days_in_month y m ≤ 31.
Proof.
  intros Hm. pose proof (LeapOfYear_range y) as Hl. unfold days_in_month.
  assert (m = 0 ∨ m = 1 ∨ m = 2 ∨ m = 3 ∨ m = 4 ∨ m = 5 ∨ m = 6 ∨ m = 7
          ∨ m = 8 ∨ m = 9 ∨ m = 10 ∨ m = 11) as Hcase by lia.
  destruct Hcase as [->|[->|[->|[->|[->|[->|[->|[->|[->|[->|[->| ->]]]]]]]]]]];
    simpl; lia.
Qed.

(** A valid date built from a year past 99 holds the instant that the
    zone takes for the local time of the fields. *)
Lemma newDate_Some tza y m d h mi a :
  100 ≤ y →
  newDate tza (Some y) (Some m) (Some d) (Some h) (Some mi) = Some a →
  a = UTC tza (local_value y m d h mi).
Proof.
  intros Hy. unfold newDate. cbn [mbind option_bind].
  assert ((0 <=? y) && (y <=? 99) = false) as ->
    by (apply andb_false_iff; right; apply Z.leb_gt; lia).
  fold (local_value y m d h mi). unfold TimeClip.
  destruct (_ <=? _); [|done]. by intros [= <-].
Qed.

(** Inside the calendar ranges, and at a local time that the zone keeps,
    the getters of a new date return the arguments it was built from. *)
Lemma newDate_fields tza y m d h mi :
  100 ≤ y ≤ 275001 → 0 ≤ m ≤ 11 → 1 ≤ d ≤ days_in_month y m →
  0 ≤ h ≤ 23 → 0 ≤ mi ≤ 59 →
  kept_by_zone tza (local_value y m d h mi) →
  getFullYear tza (newDate tza (Some y) (Some m) (Some d) (Some h) (Some mi))
  = Some y
  ∧ getMonth tza (newDate tza (Some y) (Some m) (Some d) (Some h) (Some mi))
    = Some m
  ∧ getDate tza (newDate tza (Some y) (Some m) (Some d) (Some h) (Some mi))
    = Some d
  ∧ getHours tza (newDate tza (Some y) (Some m) (Some d) (Some h) (Some mi))
    = Some h
  ∧ getMinutes tza (newDate tza (Some y) (Some m) (Some d) (Some h) (Some mi))
    = Some mi
  ∧ getSeconds tza (newDate tza (Some y) (Some m) (Some d) (Some h) (Some mi))
    = Some 0.
Proof.
  intros Hy Hm Hd Hh Hmi [Hoff Hkept].
  pose proof (days_in_month_bound y m Hm) as Hdm.
  rewrite newDate_in_range by (done || lia).
  destruct (time_fields y m d h mi Hm Hd Hh Hmi) as (? & ? & ? & ? & ? & ?).
  unfold getFullYear, getMonth, getDate, getHours, getMinutes, getSeconds.
  cbn [fmap option_fmap option_map]. rewrite Hkept. unfold local_value.
  repeat split; by f_equal.
Qed.

(** ** The claims about [parseEventDateTime] *)

(** C1. Shared meridiem inference. On every input of the grammar whose
    month is recognised, both instants are built from hours converted by
    the one trailing marker: under PM a start hour of 12 stays 12 and every
    other start hour has 12 added; under AM a start hour of 12 becomes 0 and
    every other start hour is unchanged; the end hour has 12 added under PM
    unless it is 12, becomes 0 under AM when it is 12, and is otherwise
    unchanged. *)
Theorem parseEventDateTime_shared_meridiem tza
  s y mon dd sh sm eh em mer tz month pm :
  Matches eventPattern s [mon; dd; sh; sm; eh; em; mer; tz] →
  MONTHS !! substring (toLowerCase mon) 0 3 = Some month →
  toUpperCase mer = marker pm →
  parseEventDateTime tza (VString s) y =
  Some (range_of tza (if month <? 11 then y + 1 else y) month (decimal_value dd)
          (spec_start_hour pm (decimal_value sh)) (decimal_value sm)
          (spec_end_hour pm (decimal_value eh)) (decimal_value em)
          (toUpperCase tz)).
Proof.
  intros M Hmonth Hmer.
  rewrite (parseEventDateTime_grammar _ _ _ _ _ _ _ _ _ _ _ M), Hmonth.
  cbn zeta. rewrite (marker_PM _ _ Hmer), spec_hours_agree. reflexivity.
Qed.

Lemma parseEventDateTime_shared_meridiem_witness :
  parseEventDateTime New_York
    (VString (str "Friday, Dec 5, 12:00 " ++ en_dash ++ str " 1:30 PM EST")) 2025
  = Some (range_of New_York 2025 11 5 12 0 13 30 (str "EST"))
  ∧ parseEventDateTime New_York
      (VString (str "Saturday, Dec 6, 12:00 - 1:00 am EST")) 2025
    = Some (range_of New_York 2025 11 6 0 0 1 0 (str "EST")).
Proof.
  split.
  - apply (parseEventDateTime_shared_meridiem New_York _ 2025
             (str "Dec") (str "5") (str "12") (str "00") (str "1") (str "30")
             (str "PM") (str "EST") 11 true).
    + apply exec_sound. vm_compute. reflexivity.
    + vm_compute. reflexivity.
    + vm_compute. reflexivity.
  - apply (parseEventDateTime_shared_meridiem New_York _ 2025
             (str "Dec") (str "6") (str "12") (str "00") (str "1") (str "00")
             (str "am") (str "EST") 11 false).
    + apply exec_sound. vm_compute. reflexivity.
    + vm_compute. reflexivity.
    + vm_compute. reflexivity.
Defined.

(** C2, as the code has it. [parseEventDateTime] is a total function into
    an option: it never throws. It returns the no-match result whenever its
    argument is not a text of the grammar with a recognised month name. A
    text of the grammar with a recognised month name and hours from 1 to
    12 gives a complete result whatever its day and its minutes are: the
    zone label and two dates built from the year of the year rule, the
    month, the day, the hours in 24-hour form and the minutes. These two
    fields are not checked against their ranges. For a reference year from
    100 to 275000 both dates are valid, and each is the instant that the
    zone takes for the local midnight of the first of the month moved by
    the day minus one in days, the hour and the minutes. *)
Theorem parseEventDateTime_no_match tza v y :
  ((∀ s mon dd sh sm eh em mer tz,
      v = VString s →
      Matches eventPattern s [mon; dd; sh; sm; eh; em; mer; tz] →
      MONTHS !! substring (toLowerCase mon) 0 3 = None) →
   parseEventDateTime tza v y = None)
  ∧ (∀ s mon dd sh sm eh em mer tz month pm,
       v = VString s →
       Matches eventPattern s [mon; dd; sh; sm; eh; em; mer; tz] →
       MONTHS !! substring (toLowerCase mon) 0 3 = Some month →
       toUpperCase mer = marker pm →
       1 ≤ decimal_value sh ≤ 12 → 1 ≤ decimal_value eh ≤ 12 →
       let year := spec_year month y in
       let startHour := spec_start_hour pm (decimal_value sh) in
       let endHour := spec_end_hour pm (decimal_value eh) in
       let first := local_value year month 1 0 0 in
       let startLocal :=
         first + (decimal_value dd - 1) * msPerDay + startHour * msPerHour
         + decimal_value sm * msPerMinute in
       let endLocal :=
         first + (decimal_value dd - 1) * msPerDay + endHour * msPerHour
         + decimal_value em * msPerMinute in
       0 ≤ startHour ≤ 23 ∧ 0 ≤ endHour ≤ 23
       ∧ parseEventDateTime tza v y
         = Some (range_of tza year month (decimal_value dd)
                   startHour (decimal_value sm) endHour (decimal_value em)
                   (toUpperCase tz))
       ∧ (100 ≤ y ≤ 275000 →
          offset_within_a_day tza startLocal →
          offset_within_a_day tza endLocal →
          parseEventDateTime tza v y
          = Some (EventDateTime (Some (UTC tza startLocal))
                    (Some (UTC tza endLocal)) (toUpperCase tz)))).
Proof.
  split.
  - intros H. destruct v as [| |b|n|s|]; try reflexivity.
    { unfold parseEventDateTime. cbn [is_string negb]. by rewrite orb_true_r. }
    { unfold parseEventDateTime. cbn [is_string negb]. by rewrite orb_true_r. }
    destruct (exec eventPattern s) as [caps|] eqn:E.
    + apply exec_sound in E.
      destruct (eventPattern_tokens _ _ E)
        as (mon & dd & sh & sm & eh & em & mer & tz & -> & _).
      rewrite (parseEventDateTime_grammar _ _ _ _ _ _ _ _ _ _ _ E).
      by rewrite (H s mon dd sh sm eh em mer tz eq_refl E).
    + apply parseEventDateTime_no_grammar. by apply exec_None.
  - intros s mon dd sh sm eh em mer tz month pm -> M Hmonth Hmer Hsh Heh.
    cbv zeta.
    destruct (eventPattern_tokens _ _ M)
      as (? & ? & ? & ? & ? & ? & ? & ? & [= <- <- <- <- <- <- <- <-] & _
          & _ & [Ddd Ldd] & [Dsh Lsh] & [Dsm Lsm] & [Deh Leh] & [Dem Lem]
          & _ & _).
    pose proof (MONTHS_range _ _ Hmonth) as Hm.
    pose proof (decimal_value_bounds dd Ddd ltac:(lia)) as Bdd.
    pose proof (decimal_value_bounds sm Dsm ltac:(lia)) as Bsm.
    pose proof (decimal_value_bounds em Dem ltac:(lia)) as Bem.
    assert (0 ≤ spec_start_hour pm (decimal_value sh) ≤ 23) as Hs
      by (unfold spec_start_hour;
          destruct pm, (Z.eqb_spec (decimal_value sh) 12); lia).
    pose proof (spec_end_hour_range pm (decimal_value eh) ltac:(lia)) as He.
    assert (parseEventDateTime tza (VString s) y
            = Some (range_of tza (spec_year month y) month (decimal_value dd)
                      (spec_start_hour pm (decimal_value sh))
                      (decimal_value sm)
                      (spec_end_hour pm (decimal_value eh))
                      (decimal_value em) (toUpperCase tz))) as Hr.
    { rewrite (parseEventDateTime_grammar _ _ _ _ _ _ _ _ _ _ _ M), Hmonth.
      cbn zeta. rewrite (month_rule _ _ Hm).
      rewrite (marker_PM _ _ Hmer), spec_hours_agree. reflexivity. }
    split; [done|]. split; [done|]. split; [exact Hr|].
    intros Hy Hos Hoe. rewrite Hr. unfold range_of.
    assert (∀ h mi,
              local_value (spec_year month y) month 1 0 0
              + (decimal_value dd - 1) * msPerDay + h * msPerHour
              + mi * msPerMinute
              = local_value (spec_year month y) month (decimal_value dd) h mi)
      as El.
    { intros h mi. unfold local_value, MakeDate, MakeDay, MakeTime. lia. }
    rewrite El in Hos, Hoe. rewrite !El.
    assert (100 ≤ spec_year month y ≤ 275001) as Hyr
      by (unfold spec_year; destruct (month =? 11); lia).
    rewrite !newDate_in_range by (done || lia). reflexivity.
Qed.

Lemma parseEventDateTime_no_match_witness :
  parseEventDateTime New_York
    (VString (str "Monday, Xyz 8, 1:00 " ++ en_dash ++ str " 2:00 PM EST")) 2025
  = None
  ∧ parseEventDateTime New_York
      (VString (str "Monday, Dec 45, 1:99 - 2:60 PM EST")) 2025
    = Some (range_of New_York 2025 11 45 13 99 14 60 (str "EST"))
  ∧ parseEventDateTime New_York
      (VString (str "Monday, Dec 45, 1:99 - 2:60 PM EST")) 2025
    = Some (EventDateTime
              (Some (UTC New_York
                       (local_value 2025 11 1 0 0 + 44 * msPerDay
                        + 13 * msPerHour + 99 * msPerMinute)))
              (Some (UTC New_York
                       (local_value 2025 11 1 0 0 + 44 * msPerDay
                        + 14 * msPerHour + 60 * msPerMinute)))
              (str "EST")).
Proof.
  split.
  - apply parseEventDateTime_no_match.
    intros s mon dd sh sm eh em mer tz [= <-] M.
    assert (Matches eventPattern
              (str "Monday, Xyz 8, 1:00 " ++ en_dash ++ str " 2:00 PM EST")
              [str "Xyz"; str "8"; str "1"; str "00"; str "2"; str "00";
               str "PM"; str "EST"]) as M'
      by (apply exec_sound; vm_compute; reflexivity).
    pose proof (Matches_unique _ eventPattern_unambiguous _ _ _ M M') as E.
    injection E as -> _. vm_compute. reflexivity.
  - destruct (proj2 (parseEventDateTime_no_match New_York
                       (VString (str "Monday, Dec 45, 1:99 - 2:60 PM EST"))
                       2025)
                _ (str "Dec") (str "45") (str "1") (str "99") (str "2")
                (str "60") (str "PM") (str "EST") 11 true eq_refl)
      as (_ & _ & E & V).
    + apply exec_sound. vm_compute. reflexivity.
    + vm_compute. reflexivity.
    + vm_compute. reflexivity.
    + vm_compute. split; discriminate.
    + vm_compute. split; discriminate.
    + split; [exact E|]. apply V.
      * lia.
      * vm_compute. discriminate.
      * vm_compute. discriminate.
Defined.

(** C2 as stated fails: minutes outside 0-59 do not give the no-match
    result. The text below has 75 minutes and yields a range whose start is
    11:15. *)
Lemma parseEventDateTime_minutes_unchecked :
  parseEventDateTime New_York
    (VString (str "Thursday, Dec 4, 10:75 - 11:00 AM EST")) 2025
  = Some (range_of New_York 2025 11 4 10 75 11 0 (str "EST"))
  ∧ parseEventDateTime New_York
      (VString (str "Thursday, Dec 4, 10:75 - 11:00 AM EST")) 2025
    ≠ None
  ∧ getHours New_York
      (startDate (range_of New_York 2025 11 4 10 75 11 0 (str "EST")))
    = Some 11
  ∧ getMinutes New_York
      (startDate (range_of New_York 2025 11 4 10 75 11 0 (str "EST")))
    = Some 15.
Proof. repeat split; vm_compute; (reflexivity || discriminate). Qed.

(** C3, as the code has it. On every input of the grammar with a
    recognised month, both instants are constructed with the year
    [referenceYear + 1] for every month but December and [referenceYear]
    for December, together with the month, the day, the converted hours
    and the minutes of the text. When the day exists in that month, the
    hours are at most 12, the minutes at most 59, the reference year lies
    between 100 and 275000 and the zone keeps the two local times, that
    year is the calendar year of both instants. *)
Theorem parseEventDateTime_year tza s y mon dd sh sm eh em mer tz month pm :
  Matches eventPattern s [mon; dd; sh; sm; eh; em; mer; tz] →
  MONTHS !! substring (toLowerCase mon) 0 3 = Some month →
  toUpperCase mer = marker pm →
  let year := if month =? 11 then y else y + 1 in
  let day := decimal_value dd in
  let startHour := spec_start_hour pm (decimal_value sh) in
  let endHour := spec_end_hour pm (decimal_value eh) in
  parseEventDateTime tza (VString s) y
  = Some (EventDateTime
            (newDate tza (Some year) (Some month) (Some day) (Some startHour)
               (Some (decimal_value sm)))
            (newDate tza (Some year) (Some month) (Some day) (Some endHour)
               (Some (decimal_value em)))
            (toUpperCase tz))
  ∧ (100 ≤ y ≤ 275000 →
     1 ≤ day ≤ days_in_month year month →
     decimal_value sh ≤ 12 → decimal_value sm ≤ 59 →
     decimal_value eh ≤ 12 → decimal_value em ≤ 59 →
     kept_by_zone tza
       (local_value year month day startHour (decimal_value sm)) →
     kept_by_zone tza
       (local_value year month day endHour (decimal_value em)) →
     getFullYear tza
       (newDate tza (Some year) (Some month) (Some day) (Some startHour)
          (Some (decimal_value sm)))
     = Some year
     ∧ getFullYear tza
         (newDate tza (Some year) (Some month) (Some day) (Some endHour)
            (Some (decimal_value em)))
       = Some year).
Proof.
  intros M Hmonth Hmer. cbv zeta.
  destruct (eventPattern_tokens _ _ M)
    as (? & ? & ? & ? & ? & ? & ? & ? & [= <- <- <- <- <- <- <- <-] & _
        & _ & _ & [Dsh Lsh] & [Dsm Lsm] & [Deh Leh] & [Dem Lem] & _ & _).
  pose proof (MONTHS_range _ _ Hmonth) as Hm.
  pose proof (decimal_value_bounds sh Dsh ltac:(lia)).
  pose proof (decimal_value_bounds sm Dsm ltac:(lia)).
  pose proof (decimal_value_bounds eh Deh ltac:(lia)).
  pose proof (decimal_value_bounds em Dem ltac:(lia)).
  fold (spec_year month y). set (yr := spec_year month y) in *.
  split.
  - rewrite (parseEventDateTime_grammar _ _ _ _ _ _ _ _ _ _ _ M), Hmonth.
    cbn zeta. rewrite (month_rule _ _ Hm).
    rewrite (marker_PM _ _ Hmer), spec_hours_agree. reflexivity.
  - intros Hy Hdd Hsh Hsm Heh Hem Ks Ke.
    assert (100 ≤ yr ≤ 275001) as Hyr
      by (unfold yr, spec_year; destruct (month =? 11); lia).
    assert (0 ≤ spec_start_hour pm (decimal_value sh) ≤ 23) as Hs
      by (unfold spec_start_hour;
          destruct pm, (Z.eqb_spec (decimal_value sh) 12); lia).
    pose proof (spec_end_hour_range pm (decimal_value eh) ltac:(lia)) as He.
    split; by apply newDate_fields; (done || lia).
Qed.

Lemma parseEventDateTime_year_witness :
  parseEventDateTime New_York
    (VString (str "Thursday, Jan 2, 10:00 " ++ en_dash ++ str " 11:00 AM EST"))
    2025
  = Some (EventDateTime
            (newDate New_York (Some 2026) (Some 0) (Some 2) (Some 10) (Some 0))
            (newDate New_York (Some 2026) (Some 0) (Some 2) (Some 11) (Some 0))
            (str "EST"))
  ∧ getFullYear New_York
      (newDate New_York (Some 2026) (Some 0) (Some 2) (Some 10) (Some 0))
    = Some 2026
  ∧ getFullYear New_York
      (newDate New_York (Some 2026) (Some 0) (Some 2) (Some 11) (Some 0))
    = Some 2026.
Proof.
  destruct (parseEventDateTime_year New_York
              (str "Thursday, Jan 2, 10:00 " ++ en_dash ++ str " 11:00 AM EST")
              2025 (str "Jan") (str "2") (str "10") (str "00") (str "11")
              (str "00") (str "AM") (str "EST") 0 false)
    as (E & H).
  - apply exec_sound. vm_compute. reflexivity.
  - vm_compute. reflexivity.
  - vm_compute. reflexivity.
  - split; [exact E|]. apply H.
    + lia.
    + vm_compute. split; discriminate.
    + vm_compute. discriminate.
    + vm_compute. discriminate.
    + vm_compute. discriminate.
    + vm_compute. discriminate.
    + vm_compute. split; [discriminate|reflexivity].
    + vm_compute. split; [discriminate|reflexivity].
Defined.

(** C3 as stated fails: the text below is parsed, its month is December and
    the reference year is 2025, yet both instants lie in 2026, because day
    32 of December is the first of January. *)
Lemma parseEventDateTime_year_day_overflow :
  parseEventDateTime New_York
    (VString (str "Thursday, Dec 32, 10:00 - 11:00 AM EST")) 2025
  = Some (range_of New_York 2025 11 32 10 0 11 0 (str "EST"))
  ∧ getFullYear New_York
      (startDate (range_of New_York 2025 11 32 10 0 11 0 (str "EST")))
    = Some 2026
  ∧ getFullYear New_York
      (endDate (range_of New_York 2025 11 32 10 0 11 0 (str "EST")))
    = Some 2026
  ∧ getFullYear New_York
      (startDate (range_of New_York 2025 11 32 10 0 11 0 (str "EST")))
    ≠ Some 2025.
Proof. repeat split; vm_compute; (reflexivity || discriminate). Qed.

(** C4, as the code has it. The timezone of the result is the timezone
    token of the text in upper case: [a-z] become [A-Z] and every other
    character is kept. It is the token itself exactly when the token has no
    lower-case letter. *)
Theorem parseEventDateTime_timezone tza s y mon dd sh sm eh em mer tz month :
  Matches eventPattern s [mon; dd; sh; sm; eh; em; mer; tz] →
  MONTHS !! substring (toLowerCase mon) 0 3 = Some month →
  ∃ r, parseEventDateTime tza (VString s) y = Some r
       ∧ timezone r = toUpperCase tz
       ∧ (timezone r = tz ↔ Forall (λ c, between 97 122 c = false) tz).
Proof.
  intros M Hmonth.
  rewrite (parseEventDateTime_grammar _ _ _ _ _ _ _ _ _ _ _ M), Hmonth.
  eexists. split; [reflexivity|]. cbn [range_of timezone].
  split; [reflexivity|]. unfold toUpperCase.
  clear. induction tz as [|c tz IH]; simpl.
  - split; [constructor|done].
  - rewrite Forall_cons, <- IH. unfold upper_unit, between.
    destruct ((97 <=? c) && (c <=? 122))%N eqn:E.
    + split; [|intros [? _]; done]. intros [= Hc _].
      apply andb_true_iff in E as [E _]. apply N.leb_le in E. lia.
    + split; [intros [= ->]; done|]. intros [_ ->]. done.
Qed.

Lemma parseEventDateTime_timezone_witness :
  ∃ r, parseEventDateTime New_York
         (VString (str "Monday, Dec 8, 1:00 - 2:00 PM pst")) 2025 = Some r
       ∧ timezone r = toUpperCase (str "pst")
       ∧ (timezone r = str "pst"
          ↔ Forall (λ c, between 97 122 c = false) (str "pst")).
Proof.
  apply (parseEventDateTime_timezone New_York _ 2025
           (str "Dec") (str "8") (str "1") (str "00") (str "2") (str "00")
           (str "PM") (str "pst") 11).
  - apply exec_sound. vm_compute. reflexivity.
  - vm_compute. reflexivity.
Defined.

(** C4 as stated fails: a text that ends in "est" is parsed and the
    timezone of the result is "EST", not "est". *)
Lemma parseEventDateTime_timezone_uppercased :
  parseEventDateTime New_York
    (VString (str "Monday, Dec 8, 1:00 - 2:00 PM est")) 2025
  = Some (range_of New_York 2025 11 8 13 0 14 0 (str "EST"))
  ∧ timezone (range_of New_York 2025 11 8 13 0 14 0 (str "EST")) ≠ str "est".
Proof. split; vm_compute; [reflexivity|discriminate]. Qed.

(** C9. An argument that is not a string, or that is falsy (null,
    undefined, the empty string), gives the no-match result; the check
    comes before the pattern is tried. *)
Theorem parseEventDateTime_argument_check tza v y :
  is_string v = false ∨ truthy v = false →
  parseEventDateTime tza v y = None.
Proof.
  intros [H|H]; unfold parseEventDateTime; rewrite H; cbn [negb orb];
    [by rewrite orb_true_r|done].
Qed.

Lemma parseEventDateTime_argument_check_witness :
  parseEventDateTime New_York VNull 2025 = None
  ∧ parseEventDateTime New_York VUndefined 2025 = None
  ∧ parseEventDateTime New_York (VString []) 2025 = None
  ∧ parseEventDateTime New_York (VNumber (Some 7)) 2025 = None.
Proof.
  split; [|split; [|split]]; apply parseEventDateTime_argument_check;
    (by left) || (by right).
Defined.

(** C10. Month recognition reads the first three characters of the month
    token without regard to case: a token whose first three characters
    are one of the twelve abbreviations is that month, whatever follows
    them, and every other token gives the no-match result. *)
Theorem parseEventDateTime_month_recognition tza
  s y mon dd sh sm eh em mer tz :
  Matches eventPattern s [mon; dd; sh; sm; eh; em; mer; tz] →
  parseEventDateTime tza (VString s) y =
  match month_of_token mon with
  | Some month =>
      let pm := bool_decide (toUpperCase mer = str "PM") in
      Some (range_of tza (if month <? 11 then y + 1 else y) month
              (decimal_value dd)
              (spec_start_hour pm (decimal_value sh)) (decimal_value sm)
              (spec_end_hour pm (decimal_value eh)) (decimal_value em)
              (toUpperCase tz))
  | None => None
  end.
Proof.
  intros M.
  rewrite (parseEventDateTime_grammar _ _ _ _ _ _ _ _ _ _ _ M).
  rewrite MONTHS_month_of_token.
  destruct (month_of_token mon); [|done].
  cbn zeta. by rewrite spec_hours_agree.
Qed.

Lemma parseEventDateTime_month_recognition_witness :
  parseEventDateTime New_York
    (VString (str "Monday, MARCHing_2 8, 1:00 - 2:00 PM EST")) 2025
  = Some (range_of New_York 2026 2 8 13 0 14 0 (str "EST"))
  ∧ parseEventDateTime New_York
      (VString (str "Monday, Ma 8, 1:00 - 2:00 PM EST")) 2025
    = None.
Proof.
  split.
  - apply (parseEventDateTime_month_recognition New_York _ 2025
             (str "MARCHing_2") (str "8") (str "1") (str "00") (str "2")
             (str "00") (str "PM") (str "EST")).
    apply exec_sound. vm_compute. reflexivity.
  - apply (parseEventDateTime_month_recognition New_York _ 2025
             (str "Ma") (str "8") (str "1") (str "00") (str "2")
             (str "00") (str "PM") (str "EST")).
    apply exec_sound. vm_compute. reflexivity.
Defined.

(** The month of a token depends on its first three characters only. *)
Lemma month_of_token_prefix t1 t2 :
  take 3 t1 = take 3 t2 → month_of_token t1 = month_of_token t2.
Proof. unfold month_of_token. by intros ->. Qed.

Lemma month_of_token_march rest : month_of_token (str "Mar" ++ rest) = Some 2.
Proof. reflexivity. Qed.

(** ** [parseTime] *)

Lemma marker_meridiem mer pm :
  toUpperCase mer = marker pm →
  marker pm ∈ [str "AM"; str "PM"]
  ∧ map canonicalize (marker pm) = map canonicalize mer.
Proof.
  intros H. split.
  - destruct pm; [right; left|left].
  - change (map canonicalize mer) with (toUpperCase mer). rewrite H.
    by destruct pm.
Qed.

Lemma one_char a seg :
  Forall (λ c, is_char a c = true) seg → (1 ≤ length seg)%nat →
  (length seg ≤ 1)%nat → seg = [a].
Proof.
  destruct seg as [|c [|??]]; simpl; intros H ? ?; try lia.
  apply Forall_inv in H. unfold is_char in H. apply N.eqb_eq in H. by subst.
Qed.

(** The language of [timePattern], written out. *)
Lemma timePattern_language s caps :
  Matches timePattern s caps ↔
  ∃ h m ws mer,
    s = h ++ str ":" ++ m ++ ws ++ mer ∧ caps = [h; m; mer]
    ∧ digit_token 1 2 h ∧ digit_token 2 2 m
    ∧ Forall (λ c, is_space c = true) ws ∧ meridiem_token mer.
Proof.
  unfold timePattern, group, digits, one, many, meridiem. cbn [body]. split.
  - intros M. do 6 invert_item M.
    match goal with
    | H : Forall (λ c, is_char 58 c = true) ?x |- _ =>
        rewrite (one_char 58 x H) by done
    end.
    eexists _, _, _, _. rewrite app_nil_r. split; [reflexivity|].
    split; [done|]. unfold digit_token, within in *.
    repeat split; try done.
    match goal with
    | H : _ ∈ _ |- _ => eapply meridiem_words; [exact H|done]
    end.
  - intros (h & m & ws & mer & -> & -> & [Dh Lh] & [Dm Lm] & Hws & Hmer).
    assert (∃ pm, toUpperCase mer = marker pm) as [pm Hpm]
      by (destruct Hmer; [by exists false|by exists true]).
    destruct (marker_meridiem _ _ Hpm) as [Hin Heq].
    apply (Matches_class true is_digit 1 (Some 2%nat)); [done|lia|simpl; lia|].
    apply (Matches_class false (is_char 58) 1 (Some 1%nat) _ (str ":"));
      [by repeat constructor|simpl; lia|simpl; lia|].
    apply (Matches_class true is_digit 2 (Some 2%nat)); [done|lia|simpl; lia|].
    apply (Matches_class false is_space 0 None); [done|lia|done|].
    pose proof (Matches_words true _ [] (marker pm) mer [] [] Hin Heq
                  Matches_end) as M.
    by rewrite app_nil_r in M.
Qed.

Lemma parseTime_malformed s :
  (∀ caps, ¬ Matches timePattern s caps) → parseTime s = None.
Proof. intros H. apply exec_None in H. unfold parseTime. by rewrite H. Qed.

(** C7. On a token [H:MM], any white space, then AM or PM in any case,
    [parseTime] gives the no-match result when the hour is outside 1-12
    and otherwise the hour in 24-hour form (PM adds 12 except at 12, AM
    keeps the hour except that 12 becomes 0) with the minutes. *)
Theorem parseTime_clock h m ws mer pm :
  digit_token 1 2 h → digit_token 2 2 m →
  Forall (λ c, is_space c = true) ws →
  toUpperCase mer = marker pm →
  parseTime (h ++ str ":" ++ m ++ ws ++ mer) =
  if (1 <=? decimal_value h) && (decimal_value h <=? 12)
  then Some (ClockTime (Some (spec_start_hour pm (decimal_value h)))
               (Some (decimal_value m)))
  else None.
Proof.
  intros Hh Hm Hws Hmer.
  assert (Matches timePattern (h ++ str ":" ++ m ++ ws ++ mer) [h; m; mer])
    as M.
  { apply timePattern_language. exists h, m, ws, mer.
    repeat split; try done; try apply Hh; try apply Hm.
    destruct pm; [by right|by left]. }
  apply (exec_Matches _ _ _ timePattern_unambiguous) in M.
  unfold parseTime. rewrite M.
  rewrite (digit_token_parseInt _ _ _ (le_n 1) Hh),
    (digit_token_parseInt _ _ _ (le_S _ _ (le_n 1)) Hm), Hmer.
  unfold num_lt, num_gt, num_lt, num_neq, num_eq, num_add, spec_start_hour.
  destruct (Z.leb_spec 1 (decimal_value h)), (Z.leb_spec (decimal_value h) 12),
    (Z.ltb_spec (decimal_value h) 1), (Z.ltb_spec 12 (decimal_value h));
    try lia; try reflexivity.
  destruct pm, (Z.eqb_spec (decimal_value h) 12); simpl; congruence.
Qed.

Lemma parseTime_clock_witness :
  parseTime (str "12:00 AM") = Some (ClockTime (Some 0) (Some 0))
  ∧ parseTime (str "12:00 PM") = Some (ClockTime (Some 12) (Some 0))
  ∧ parseTime (str "1:00pm") = Some (ClockTime (Some 13) (Some 0))
  ∧ parseTime (str "25:00PM") = None.
Proof.
  assert (∀ ds lo hi, (lo ≤ length ds ≤ hi)%nat →
            forallb is_digit ds = true → digit_token lo hi ds) as D.
  { intros ds lo hi ? H. split; [|done].
    apply Forall_forall. intros c Hc. apply list_elem_of_In in Hc.
    by apply (proj1 (forallb_forall _ _) H). }
  split; [|split; [|split]].
  - apply (parseTime_clock (str "12") (str "00") (str " ") (str "AM") false);
      try (apply D; [vm_compute; lia|reflexivity]);
      [by repeat constructor|reflexivity].
  - apply (parseTime_clock (str "12") (str "00") (str " ") (str "PM") true);
      try (apply D; [vm_compute; lia|reflexivity]);
      [by repeat constructor|reflexivity].
  - apply (parseTime_clock (str "1") (str "00") [] (str "pm") true);
      try (apply D; [vm_compute; lia|reflexivity]);
      [by constructor|reflexivity].
  - apply (parseTime_clock (str "25") (str "00") [] (str "PM") true);
      try (apply D; [vm_compute; lia|reflexivity]);
      [by constructor|reflexivity].
Defined.

(** ** The grammar of [eventPattern] *)

Lemma Matches_skip cls lo hi p seg rest caps :
  Forall (λ c, cls c = true) seg → (lo ≤ length seg)%nat →
  within hi (length seg) → Matches p rest caps →
  Matches (Item false (Class cls lo hi) :: p) (seg ++ rest) caps.
Proof. intros. by apply (Matches_class false). Qed.

Lemma Matches_capture cls lo hi p seg rest caps :
  Forall (λ c, cls c = true) seg → (lo ≤ length seg)%nat →
  within hi (length seg) → Matches p rest caps →
  Matches (Item true (Class cls lo hi) :: p) (seg ++ rest) (seg :: caps).
Proof. intros. by apply (Matches_class true). Qed.

Lemma Matches_capture_last cls lo hi seg :
  Forall (λ c, cls c = true) seg → (lo ≤ length seg)%nat →
  within hi (length seg) →
  Matches [Item true (Class cls lo hi)] seg [seg].
Proof.
  intros. rewrite <- (app_nil_r seg) at 1.
  apply Matches_capture; [done..|constructor].
Qed.

Lemma Matches_marker p seg rest caps :
  meridiem_token seg → Matches p rest caps →
  Matches (Item true (Words [str "AM"; str "PM"]) :: p) (seg ++ rest)
    (seg :: caps).
Proof.
  intros Hmer M.
  assert (∃ pm, toUpperCase seg = marker pm) as [pm Hpm]
    by (destruct Hmer; [by exists false|by exists true]).
  destruct (marker_meridiem _ _ Hpm) as [Hin Heq].
  by apply (Matches_words true _ _ (marker pm)).
Qed.

Lemma word_token_nonempty w :
  Forall (λ c, is_word c = true) w → (1 ≤ length w)%nat → word_token w.
Proof. intros H Hl. split; [done|]. destruct w; simpl in *; [lia|done]. Qed.

Lemma word_token_length w : word_token w → (1 ≤ length w)%nat.
Proof. intros [_ H]. destruct w; simpl; [done|lia]. Qed.

Theorem eventPattern_language s caps :
  Matches eventPattern s caps ↔
  ∃ t, well_formed t ∧ s = render t ∧ caps = captures t.
Proof.
  unfold eventPattern, group, digits, one, many, many1, meridiem. cbn [body].
  split.
  - intros M. do 22 invert_item M.
    repeat match goal with
           | H : Forall (λ c, is_char ?a c = true) ?x |- _ =>
               rewrite (one_char a x H) by done; clear H
           end.
    match goal with
    | H : Forall (λ c, is_dash c = true) ?x |- _ =>
        destruct x as [|d [|??]]; simpl in *; try lia;
        apply Forall_inv in H
    end.
    match goal with
    | |- ∃ t, _ ∧ ?w ++ _ :: ?g1 ++ ?mn ++ ?g2 ++ ?dd ++ _ :: ?g3 ++ ?sh
              ++ _ :: ?sm ++ ?g4 ++ _ :: ?g5 ++ ?eh ++ _ :: ?em ++ ?g6
              ++ ?mk ++ ?g7 ++ ?z ++ [] = _ ∧ _ =>
        exists (RangeText w g1 mn g2 dd g3 sh sm g4 d g5 eh em g6 mk g7 z)
    end.
    split; [|split; [by rewrite app_nil_r|done]].
    unfold well_formed, spaces, digit_token, within in *. cbn.
    repeat split; try done; try (by apply word_token_nonempty).
    match goal with
    | H : _ ∈ _ |- _ => eapply meridiem_words; [exact H|done]
    end.
  - intros (t & Hwf & -> & ->).
    destruct Hwf as (Hw & [? ?] & Hm & [? ?] & [? ?] & [? ?] & [? ?] & [? ?]
                     & [? ?] & Hd & [? ?] & [? ?] & [? ?] & [? ?] & Hmer
                     & [? ?] & Hz).
    pose proof (word_token_length _ Hw). pose proof (word_token_length _ Hm).
    pose proof (word_token_length _ Hz).
    destruct Hw as [? _], Hm as [? _], Hz as [? _].
    unfold render, captures.
    apply Matches_skip; [done|done|done|].
    apply (Matches_skip _ _ _ _ [44%N]);
      [by constructor|simpl; lia|simpl; lia|].
    apply Matches_skip; [done|done|done|].
    apply Matches_capture; [done|done|done|].
    apply Matches_skip; [done|done|done|].
    apply Matches_capture; [done|lia|simpl; lia|].
    apply (Matches_skip _ _ _ _ [44%N]);
      [by constructor|simpl; lia|simpl; lia|].
    apply Matches_skip; [done|done|done|].
    apply Matches_capture; [done|lia|simpl; lia|].
    apply (Matches_skip _ _ _ _ [58%N]);
      [by constructor|simpl; lia|simpl; lia|].
    apply Matches_capture; [done|lia|simpl; lia|].
    apply Matches_skip; [done|done|done|].
    apply (Matches_skip _ _ _ _ [dash t]);
      [by constructor|simpl; lia|simpl; lia|].
    apply Matches_skip; [done|done|done|].
    apply Matches_capture; [done|lia|simpl; lia|].
    apply (Matches_skip _ _ _ _ [58%N]);
      [by constructor|simpl; lia|simpl; lia|].
    apply Matches_capture; [done|lia|simpl; lia|].
    apply Matches_skip; [done|done|done|].
    apply Matches_marker; [done|].
    apply Matches_skip; [done|done|done|].
    by apply Matches_capture_last.
Qed.

(** ** [escapeICSText] *)

Lemma replace_all_cons c by_ x s :
  replace_all c by_ (x :: s)
  = (if (x =? c)%N then by_ else [x]) ++ replace_all c by_ s.
Proof. reflexivity. Qed.

Lemma replace_all_single c by_ x :
  replace_all c by_ [x] = if (x =? c)%N then by_ else [x].
Proof. rewrite replace_all_cons. apply app_nil_r. Qed.

Lemma replace_all_app c by_ s1 s2 :
  replace_all c by_ (s1 ++ s2) = replace_all c by_ s1 ++ replace_all c by_ s2.
Proof. unfold replace_all. apply flat_map_app. Qed.

(** C6. The escaped text is the text with every backslash doubled, then
    every semicolon, then every comma preceded by a backslash, then every
    line feed replaced by backslash-n, in that order; the backslashes that
    the later steps insert are not escaped again, so that the result is the
    text escaped character by character. *)
Theorem escapeICSText_order text :
  escapeICSText text
  = replace_all 10 (str "\n")
      (replace_all 44 (str "\,")
         (replace_all 59 (str "\;")
            (replace_all 92 (str "\\") text)))
  ∧ escapeICSText text = flat_map escape_unit text.
Proof.
  split; [reflexivity|]. unfold escapeICSText.
  induction text as [|c text IH]; [reflexivity|].
  cbn [flat_map]. rewrite <- IH. clear IH.
  rewrite replace_all_cons, !replace_all_app. f_equal.
  unfold escape_unit.
  destruct (N.eqb_spec c 92) as [->|H92]; [reflexivity|].
  rewrite replace_all_single.
  destruct (N.eqb_spec c 59) as [->|H59]; [reflexivity|].
  rewrite replace_all_single.
  destruct (N.eqb_spec c 44) as [->|H44]; [reflexivity|].
  rewrite replace_all_single.
  destruct (N.eqb_spec c 10) as [->|H10]; reflexivity.
Qed.

(** The order matters: with the backslash step last, the backslash that
    escapes a semicolon would be doubled. *)
Lemma escapeICSText_backslash_first :
  escapeICSText (str ";") = str "\;"
  ∧ replace_all 92 (str "\\") (replace_all 59 (str "\;") (str ";"))
    = str "\\;".
Proof. split; reflexivity. Qed.

(** ** Line folding *)

Lemma continuation_cons c r :
  continuation (c :: r)
  = (str " " ++ take 74 (c :: r)) :: continuation (drop 74 (c :: r)).
Proof. by simp continuation. Qed.

Lemma continuation_pieces r :
  ∃ pieces,
    continuation r = map (λ p, str " " ++ p) pieces
    ∧ concat pieces = r
    ∧ Forall (λ p, (1 ≤ length p ≤ 74)%nat) pieces
    ∧ (∀ i p, pieces !! i = Some p → (S i < length pieces)%nat →
              length p = 74%nat).
Proof.
  remember (length r) as n eqn:Hn. revert r Hn.
  induction n as [n IH] using lt_wf_ind. intros [|c r] ->.
  - exists []. split; [by simp continuation|]. split; [done|].
    split; [constructor|]. intros i p. by rewrite lookup_nil.
  - destruct (IH (length (drop 74 (c :: r)))) with (r := drop 74 (c :: r))
      as (pieces & E & Hcat & Hlen & Hfull); [|done|].
    { rewrite length_drop. simpl. lia. }
    exists (take 74 (c :: r) :: pieces).
    rewrite continuation_cons, E. split; [done|]. split; [|split].
    + cbn [concat]. rewrite Hcat. apply take_drop.
    + constructor; [|done]. rewrite length_take. cbn [length]. lia.
    + intros [|i] p; cbn [lookup list_lookup length].
      * intros [= <-] Hi. change (length (take 74 (c :: r)) = 74%nat).
        rewrite length_take.
        destruct pieces as [|q pieces]; [simpl in Hi; lia|].
        assert (drop 74 (c :: r) ≠ []) as Hne.
        { rewrite <- Hcat. apply Forall_inv in Hlen. simpl.
          destruct q; simpl in *; [lia|done]. }
        assert (74 < length (c :: r))%nat; [|lia].
        destruct (Nat.lt_ge_cases 74 (length (c :: r))) as [|Hle]; [done|].
        by rewrite drop_ge in Hne.
      * intros Hp Hi. apply (Hfull i p Hp). simpl in Hi. lia.
Qed.

Lemma physical_lines_from_cons2 cur c d s :
  physical_lines_from cur (c :: d :: s)
  = if ((c =? 13) && (d =? 10))%N
    then rev cur :: physical_lines_from [] s
    else physical_lines_from (c :: cur) (d :: s).
Proof. reflexivity. Qed.

Lemma physical_lines_from_bound s :
  ∀ cur, Forall (λ l, (length l ≤ length cur + length s)%nat)
           (physical_lines_from cur s).
Proof.
  remember (length s) as n eqn:Hn. revert s Hn.
  induction n as [n IH] using lt_wf_ind. intros [|c [|d s]] -> cur.
  - repeat constructor. rewrite length_rev. lia.
  - repeat constructor. rewrite length_rev. simpl. lia.
  - rewrite physical_lines_from_cons2.
    destruct ((c =? 13) && (d =? 10))%N.
    + constructor; [rewrite length_rev; lia|].
      eapply Forall_impl; [apply (IH (length s)); [simpl; lia|done]|].
      intros l. simpl. lia.
    + eapply Forall_impl;
        [apply (IH (length (d :: s))) with (cur := c :: cur);
         [simpl; lia|done]|].
      intros l. simpl. lia.
Qed.

Lemma physical_lines_from_app a b :
  ∀ cur, physical_lines_from cur (a ++ CRLF ++ b)
         = physical_lines_from cur a ++ physical_lines_from [] b.
Proof.
  remember (length a) as n eqn:Hn. revert a Hn.
  induction n as [n IH] using lt_wf_ind. intros [|c [|d a]] -> cur.
  - reflexivity.
  - change ([c] ++ CRLF ++ b) with (c :: 13%N :: 10%N :: b).
    rewrite physical_lines_from_cons2.
    replace ((c =? 13) && (13 =? 10))%N with false
      by (by rewrite andb_false_r).
    reflexivity.
  - change ((c :: d :: a) ++ CRLF ++ b) with (c :: d :: (a ++ CRLF ++ b)).
    rewrite !physical_lines_from_cons2.
    destruct ((c =? 13) && (d =? 10))%N.
    + rewrite (IH (length a)); [done|simpl; lia|done].
    + change (d :: a ++ CRLF ++ b) with ((d :: a) ++ CRLF ++ b).
      rewrite (IH (length (d :: a))); [done|simpl; lia|done].
Qed.

Lemma physical_lines_join chunks n :
  Forall (λ c, (length c ≤ n)%nat) chunks →
  Forall (λ l, (length l ≤ n)%nat) (physical_lines (join CRLF chunks)).
Proof.
  unfold physical_lines.
  induction 1 as [|c chunks Hc Hall IH].
  - repeat constructor. simpl. lia.
  - destruct chunks as [|c' chunks].
    + cbn [join]. eapply Forall_impl; [apply physical_lines_from_bound|].
      intros l. simpl. lia.
    + change (join CRLF (c :: c' :: chunks))
        with (c ++ CRLF ++ join CRLF (c' :: chunks)).
      rewrite physical_lines_from_app. apply Forall_app. split; [|done].
      eapply Forall_impl; [apply physical_lines_from_bound|].
      intros l. simpl. lia.
Qed.

Lemma foldLine_long line :
  (75 < length line)%nat →
  foldLine line = join CRLF (take 75 line :: continuation (drop 75 line)).
Proof.
  intros H. unfold foldLine.
  by assert ((length line <=? 75)%nat = false) as ->
    by (apply Nat.leb_gt; lia).
Qed.

Lemma foldLine_physical_lines line :
  Forall (λ l, (length l ≤ 75)%nat) (physical_lines (foldLine line)).
Proof.
  destruct (Nat.le_gt_cases (length line) 75) as [Hle|Hgt].
  - unfold foldLine.
    assert ((length line <=? 75)%nat = true) as -> by (by apply Nat.leb_le).
    eapply Forall_impl; [apply physical_lines_from_bound|].
    intros l. simpl. lia.
  - rewrite (foldLine_long _ Hgt). apply physical_lines_join.
    constructor; [rewrite length_take; lia|].
    destruct (continuation_pieces (drop 75 line))
      as (pieces & -> & _ & Hlen & _).
    apply Forall_fmap. eapply Forall_impl; [exact Hlen|].
    intros p Hp. unfold compose. cbv beta in Hp. rewrite length_app.
    change (length (str " ")) with 1%nat. lia.
Qed.

Lemma physical_lines_join_folded lines :
  Forall (λ l, (length l ≤ 75)%nat)
    (physical_lines (join CRLF (map foldLine lines))).
Proof.
  unfold physical_lines.
  induction lines as [|x lines IH].
  - constructor; [simpl; lia|constructor].
  - destruct lines as [|x' lines].
    + apply foldLine_physical_lines.
    + change (join CRLF (map foldLine (x :: x' :: lines)))
        with (foldLine x ++ CRLF ++ join CRLF (map foldLine (x' :: lines))).
      rewrite physical_lines_from_app. apply Forall_app. split; [|done].
      apply foldLine_physical_lines.
Qed.

(** ** Unique identifiers *)

Lemma uint_digits d :
  Forall (λ c, is_digit c = true) (str (NilEmpty.string_of_uint d)).
Proof. induction d; simpl; constructor; done. Qed.

Lemma str_inj a b : str a = str b → a = b.
Proof.
  unfold str. revert b. induction a as [|c a IH]; intros [|d b]; simpl;
    try done.
  intros [= H1 H2]. f_equal; [|by apply IH].
  rewrite <- (ascii_N_embedding c), <- (ascii_N_embedding d). by rewrite H1.
Qed.

(** The decimal text of an integer: not empty, and a minus sign can only
    be its first character. *)
Lemma number_toString_shape z :
  ∃ c ds, number_toString (Some z) = c :: ds ∧ 45%N ∉ ds.
Proof.
  assert (∀ d, 45%N ∉ str (NilEmpty.string_of_uint d)) as Hno.
  { intros d Hin. pose proof (uint_digits d) as Hd.
    rewrite Forall_forall in Hd. by apply Hd in Hin. }
  assert (∀ d, d ≠ Decimal.Nil →
            ∃ c ds, str (NilEmpty.string_of_uint d) = c :: ds ∧ 45%N ∉ ds)
    as Hpos.
  { intros d Hd. specialize (Hno d).
    destruct (str (NilEmpty.string_of_uint d)) as [|c ds] eqn:E.
    - destruct d; simpl in E; done.
    - exists c, ds. split; [done|]. intros Hin. apply Hno. by right. }
  unfold number_toString, Z.to_int.
  destruct z as [|p|p]; simpl.
  - exists 48%N, []. split; [done|]. apply not_elem_of_nil.
  - unfold NilZero.string_of_uint.
    pose proof (DecimalPos.Unsigned.to_uint_nonnil p) as Hn.
    destruct (Pos.to_uint p) eqn:E; try done; rewrite <- E; apply Hpos;
      by rewrite E.
  - unfold NilZero.string_of_uint.
    pose proof (DecimalPos.Unsigned.to_uint_nonnil p) as Hn.
    exists 45%N. eexists. split; [reflexivity|].
    destruct (Pos.to_uint p) eqn:E; try done; rewrite <- E; apply Hno.
Qed.

Lemma number_toString_inj z1 z2 :
  number_toString (Some z1) = number_toString (Some z2) → z1 = z2.
Proof.
  unfold number_toString. intros H%str_inj.
  apply DecimalZ.to_int_inj.
  assert (∀ z, Z.to_int z ≠ Decimal.Pos Decimal.Nil
               ∧ Z.to_int z ≠ Decimal.Neg Decimal.Nil) as Hn.
  { intros [|p|p]; unfold Z.to_int; split; try done;
      intros [= E]; by apply DecimalPos.Unsigned.to_uint_nonnil in E. }
  pose proof (NilZero.isi _ (proj1 (Hn z1)) (proj2 (Hn z1))) as E1.
  pose proof (NilZero.isi _ (proj1 (Hn z2)) (proj2 (Hn z2))) as E2.
  rewrite H in E1. congruence.
Qed.

Lemma numeral_prefix c1 ds1 c2 ds2 (x y : list N) :
  45%N ∉ ds1 → 45%N ∉ ds2 →
  (c1 :: ds1) ++ 45%N :: x = (c2 :: ds2) ++ 45%N :: y →
  c1 :: ds1 = c2 :: ds2 ∧ x = y.
Proof.
  intros H1 H2 E.
  assert (∀ (a b : list N) ca cb u v,
            45%N ∉ b → (ca :: a) ++ 45%N :: u = (cb :: b) ++ 45%N :: v →
            (length (ca :: a) ≤ length (cb :: b))%nat →
            ca :: a = cb :: b) as Hside.
  { intros a b ca cb u v Hb Eab Hlen.
    destruct (app_split_l _ _ _ _ Eab Hlen) as ([|k0 k] & Ek & Eu).
    - by rewrite app_nil_r in Ek.
    - injection Eu as <- _. exfalso. apply Hb.
      injection Ek as _ ->. apply elem_of_app. right. left. }
  assert (c1 :: ds1 = c2 :: ds2) as E'.
  { destruct (Nat.le_ge_cases (length (c1 :: ds1)) (length (c2 :: ds2))).
    - by eapply Hside.
    - symmetry. by eapply Hside. }
  split; [done|]. rewrite E' in E. apply app_inv_head in E. by injection E.
Qed.

(** C8, as the code has it. For events with the same title, two calls give
    the same identifier exactly when they read the same clock value and
    draw the same random digits: the identifiers differ whenever the clock
    or the random digits differ, and only then. *)
Theorem generateUID_distinct ev1 ev2 env1 env2 :
  event_title ev1 = event_title ev2 →
  generateUID ev1 env1 = generateUID ev2 env2
  ↔ Date_now env1 = Date_now env2
    ∧ random_digits env1 = random_digits env2.
Proof.
  intros Ht. unfold generateUID. rewrite Ht. split.
  - intros E.
    destruct (number_toString_shape (Date_now env1)) as (c1 & d1 & E1 & N1).
    destruct (number_toString_shape (Date_now env2)) as (c2 & d2 & E2 & N2).
    rewrite E1, E2 in E.
    change (str "-" ++ ?r) with (45%N :: r) in E.
    apply numeral_prefix in E as [En E]; [|done|done].
    rewrite <- E1, <- E2 in En. apply number_toString_inj in En.
    split; [done|]. by apply app_inv_tail in E.
  - by intros [-> ->].
Qed.

Lemma generateUID_distinct_witness :
  generateUID sample_event sample_environment
  = generateUID sample_event
      (Environment 1765803600001 (str "k3j5x0a9z") None)
  ↔ 1765803600000 = 1765803600001 ∧ str "k3j5x0a9z" = str "k3j5x0a9z".
Proof.
  apply (generateUID_distinct sample_event sample_event sample_environment
           (Environment 1765803600001 (str "k3j5x0a9z") None)).
  reflexivity.
Defined.

(** C8 as stated fails: two calls for the same title that read the same
    clock value and draw the same random digits give the same identifier. *)
Lemma generateUID_collision :
  generateUID sample_event
    (Environment 1765803600000 (str "k3j5x0a9z")
       (newDate New_York (Some 2025) (Some 11) (Some 15) (Some 9) (Some 5)))
  = generateUID sample_event
      (Environment 1765803600000 (str "k3j5x0a9z")
         (newDate New_York (Some 2025) (Some 11) (Some 15) (Some 9) (Some 6))).
Proof. reflexivity. Qed.

(** ** The instants of a range, as the getters show them *)

(** On an input of the grammar with a recognised month, a day of that
    month, hours up to 12 and minutes up to 59, and in a zone that keeps
    the two local times, the getters of both instants return the parsed
    day and minutes and the converted hours. *)
Lemma parseEventDateTime_observed tza s y mon dd sh sm eh em mer tz month pm :
  Matches eventPattern s [mon; dd; sh; sm; eh; em; mer; tz] →
  MONTHS !! substring (toLowerCase mon) 0 3 = Some month →
  toUpperCase mer = marker pm →
  100 ≤ y ≤ 275000 →
  1 ≤ decimal_value dd ≤ days_in_month (spec_year month y) month →
  decimal_value sh ≤ 12 → decimal_value sm ≤ 59 →
  decimal_value eh ≤ 12 → decimal_value em ≤ 59 →
  kept_by_zone tza
    (local_value (spec_year month y) month (decimal_value dd)
       (spec_start_hour pm (decimal_value sh)) (decimal_value sm)) →
  kept_by_zone tza
    (local_value (spec_year month y) month (decimal_value dd)
       (spec_end_hour pm (decimal_value eh)) (decimal_value em)) →
  ∃ r, parseEventDateTime tza (VString s) y = Some r
       ∧ getMonth tza (startDate r) = Some month
       ∧ getDate tza (startDate r) = Some (decimal_value dd)
       ∧ getHours tza (startDate r)
         = Some (spec_start_hour pm (decimal_value sh))
       ∧ getMinutes tza (startDate r) = Some (decimal_value sm)
       ∧ getHours tza (endDate r) = Some (spec_end_hour pm (decimal_value eh))
       ∧ getMinutes tza (endDate r) = Some (decimal_value em).
Proof.
  intros M Hmonth Hmer Hy Hdd Hsh Hsm Heh Hem Ks Ke.
  destruct (eventPattern_tokens _ _ M)
    as (? & ? & ? & ? & ? & ? & ? & ? & [= <- <- <- <- <- <- <- <-] & _
        & _ & _ & [Dsh Lsh] & [Dsm Lsm] & [Deh Leh] & [Dem Lem] & _ & _).
  pose proof (MONTHS_range _ _ Hmonth) as Hm.
  pose proof (decimal_value_bounds sh Dsh ltac:(lia)).
  pose proof (decimal_value_bounds sm Dsm ltac:(lia)).
  pose proof (decimal_value_bounds eh Deh ltac:(lia)).
  pose proof (decimal_value_bounds em Dem ltac:(lia)).
  rewrite (parseEventDateTime_grammar _ _ _ _ _ _ _ _ _ _ _ M), Hmonth.
  cbn zeta. rewrite (month_rule _ _ Hm), (marker_PM _ _ Hmer).
  rewrite spec_hours_agree in *.
  set (yr := spec_year month y) in *.
  assert (100 ≤ yr ≤ 275001) as Hyr
    by (unfold yr, spec_year; destruct (month =? 11); lia).
  pose proof (spec_end_hour_range pm (decimal_value sh) ltac:(lia)) as Hs.
  pose proof (spec_end_hour_range pm (decimal_value eh) ltac:(lia)) as He.
  eexists. split; [reflexivity|]. unfold range_of. cbn [startDate endDate].
  destruct (newDate_fields tza yr month (decimal_value dd)
              (spec_end_hour pm (decimal_value sh)) (decimal_value sm))
    as (_ & ? & ? & ? & ? & _); [done || lia..|].
  destruct (newDate_fields tza yr month (decimal_value dd)
              (spec_end_hour pm (decimal_value eh)) (decimal_value em))
    as (_ & _ & _ & ? & ? & _); done || lia.
Qed.

(** ** The examples of the test suite, on the model *)

Example test_parseTime :
  parseTime (str "1:00PM") = Some (ClockTime (Some 13) (Some 0))
  ∧ parseTime (str "10:00AM") = Some (ClockTime (Some 10) (Some 0))
  ∧ parseTime (str "12:00PM") = Some (ClockTime (Some 12) (Some 0))
  ∧ parseTime (str "12:00AM") = Some (ClockTime (Some 0) (Some 0))
  ∧ parseTime (str "1:00 PM") = Some (ClockTime (Some 13) (Some 0))
  ∧ parseTime (str "1:00pm") = Some (ClockTime (Some 13) (Some 0))
  ∧ parseTime (str "invalid") = None
  ∧ parseTime [] = None
  ∧ parseTime (str "25:00PM") = None.
Proof. repeat split; vm_compute; reflexivity. Qed.

Example test_formatISODate :
  formatISODate New_York
    (newDate New_York (Some 2025) (Some 11) (Some 15) (Some 13) (Some 0))
  = str "20251215T130000"
  ∧ formatISODate New_York
      (newDate New_York (Some 2025) (Some 0) (Some 5) (Some 9) (Some 5))
    = str "20250105T090500"
  ∧ formatISODate New_York
      (newDate New_York (Some 2025) (Some 11) (Some 31) (Some 0) (Some 0))
    = str "20251231T000000".
Proof. repeat split; vm_compute; reflexivity. Qed.

Example test_parseEventDateTime_standard :
  ∀ r,
    parseEventDateTime New_York
      (VString (str "Thursday, Dec 4, 10:00 " ++ en_dash ++ str " 11:00 AM EST"))
      2025 = Some r →
    getMonth New_York (startDate r) = Some 11
    ∧ getDate New_York (startDate r) = Some 4
    ∧ getHours New_York (startDate r) = Some 10
    ∧ getMinutes New_York (startDate r) = Some 0
    ∧ getHours New_York (endDate r) = Some 11
    ∧ getMinutes New_York (endDate r) = Some 0
    ∧ timezone r = str "EST".
Proof. intros r H. vm_compute in H. injection H as <-. by vm_compute. Qed.

Example test_parseEventDateTime_midnight :
  ∀ r1 r2,
    parseEventDateTime New_York
      (VString (str "Friday, Dec 5, 11:00 " ++ en_dash ++ str " 12:00 AM EST"))
      2025 = Some r1 →
    parseEventDateTime New_York
      (VString (str "Saturday, Dec 6, 12:00 " ++ en_dash ++ str " 1:00 AM EST"))
      2025 = Some r2 →
    getHours New_York (startDate r1) = Some 11
    ∧ getHours New_York (endDate r1) = Some 0
    ∧ getHours New_York (startDate r2) = Some 0
    ∧ getHours New_York (endDate r2) = Some 1.
Proof.
  intros r1 r2 H1 H2. vm_compute in H1, H2.
  injection H1 as <-. injection H2 as <-. by vm_compute.
Qed.

Example test_parseEventDateTime_separators :
  parseEventDateTime New_York
    (VString (str "Monday, Dec 8, 1:00 " ++ en_dash ++ str " 2:00 PM EST")) 2025
  = parseEventDateTime New_York
      (VString (str "Monday, Dec 8, 1:00 - 2:00 PM EST")) 2025
  ∧ parseEventDateTime New_York (VString (str "Invalid string")) 2025 = None
  ∧ parseEventDateTime New_York
      (VString (str "Monday, Xyz 8, 1:00 " ++ en_dash ++ str " 2:00 PM EST"))
      2025 = None.
Proof. repeat split; vm_compute; reflexivity. Qed.

(** The hour that the change of the clock skips: in the sample zone there
    is no 2:30 on 8 March 2026, and the start of this range is 3:30, the
    instant of its end. *)
Example test_parseEventDateTime_skipped_hour :
  ∀ r,
    parseEventDateTime New_York
      (VString (str "Sunday, Mar 8, 2:30 - 3:30 AM EST")) 2025 = Some r →
    formatISODate New_York (startDate r) = str "20260308T033000"
    ∧ formatISODate New_York (endDate r) = str "20260308T033000"
    ∧ startDate r = endDate r.
Proof. intros r H. vm_compute in H. injection H as <-. by vm_compute. Qed.

Example test_generateICS_lines :
  str "DTSTART:20251215T130000"
    ∈ generateICS_lines New_York sample_event sample_environment
  ∧ str "DTEND:20251215T140000"
    ∈ generateICS_lines New_York sample_event sample_environment
  ∧ str "SUMMARY:Community Hangout"
    ∈ generateICS_lines New_York sample_event sample_environment
  ∧ str "LOCATION:Virtual"
    ∈ generateICS_lines New_York sample_event sample_environment
  ∧ escapeICSText (str "Office Hours/ Q&A: Test, Event; More")
    = str "Office Hours/ Q&A: Test\, Event\; More".
Proof.
  repeat split; try (vm_compute; reflexivity);
    apply list_elem_of_In; vm_compute; tauto.
Qed.

(** * More of the code *)

(** ** [parseTime] and [parseDateTime] *)

Lemma parseTime_grammar s h m mer :
  Matches timePattern s [h; m; mer] →
  parseTime s =
  if (1 <=? decimal_value h) && (decimal_value h <=? 12)
  then Some (ClockTime
               (Some (spec_start_hour (bool_decide (toUpperCase mer = str "PM"))
                        (decimal_value h)))
               (Some (decimal_value m)))
  else None.
Proof.
  intros M.
  destruct (proj1 (timePattern_language _ _) M)
    as (h' & m' & ws & mer' & _ & [= <- <- <-] & Hh & Hm & _ & Hmer).
  apply (exec_Matches _ _ _ timePattern_unambiguous) in M.
  unfold parseTime. rewrite M.
  rewrite (digit_token_parseInt _ _ _ (le_n 1) Hh),
    (digit_token_parseInt _ _ _ (le_S _ _ (le_n 1)) Hm).
  unfold num_lt, num_gt, num_lt, num_neq, num_eq, num_add, spec_start_hour.
  destruct (Z.leb_spec 1 (decimal_value h)), (Z.leb_spec (decimal_value h) 12),
    (Z.ltb_spec (decimal_value h) 1), (Z.ltb_spec 12 (decimal_value h));
    try lia; try reflexivity.
  destruct Hmer as [-> | ->], (Z.eqb_spec (decimal_value h) 12);
    simpl; congruence.
Qed.

(** X1. A result of [parseTime] is never NaN: its hour lies between 0 and
    23. Its minutes lie between 0 and 99: they are not checked against 59. *)
Theorem parseTime_result_range s ct :
  parseTime s = Some ct →
  ∃ hv mv, ct = ClockTime (Some hv) (Some mv) ∧ 0 ≤ hv ≤ 23 ∧ 0 ≤ mv ≤ 99.
Proof.
  intros H.
  destruct (exec timePattern s) as [caps|] eqn:E;
    [|unfold parseTime in H; by rewrite E in H].
  apply exec_sound in E.
  destruct (proj1 (timePattern_language _ _) E)
    as (h & m & ws & mer & _ & -> & [Dh Lh] & [Dm Lm] & _ & _).
  rewrite (parseTime_grammar _ _ _ _ E) in H.
  pose proof (decimal_value_bounds h Dh ltac:(lia)).
  pose proof (decimal_value_bounds m Dm ltac:(lia)).
  destruct (Z.leb_spec 1 (decimal_value h)), (Z.leb_spec (decimal_value h) 12);
    simpl in H; try done.
  injection H as <-. eexists _, _. split; [reflexivity|]. split; [|done].
  unfold spec_start_hour.
  destruct (bool_decide _), (Z.eqb_spec (decimal_value h) 12); lia.
Qed.

Lemma parseTime_result_range_witness :
  ∃ hv mv, ClockTime (Some 13) (Some 75) = ClockTime (Some hv) (Some mv)
           ∧ 0 ≤ hv ≤ 23 ∧ 0 ≤ mv ≤ 99.
Proof.
  apply (parseTime_result_range (str "1:75 PM")). vm_compute. reflexivity.
Defined.

(** X2. [parseTime] gives the no-match result exactly for the texts that
    are not a token [H:MM], white space, AM or PM with an hour from 1 to
    12. *)
Theorem parseTime_no_match_iff s :
  parseTime s = None ↔
  ∀ h m ws mer,
    s = h ++ str ":" ++ m ++ ws ++ mer →
    digit_token 1 2 h → digit_token 2 2 m →
    Forall (λ c, is_space c = true) ws → meridiem_token mer →
    ¬ (1 ≤ decimal_value h ≤ 12).
Proof.
  split.
  - intros Hnone h m ws mer -> Hh Hm Hws Hmer Hrange.
    assert (Matches timePattern (h ++ str ":" ++ m ++ ws ++ mer) [h; m; mer])
      as M by (apply timePattern_language; by exists h, m, ws, mer).
    rewrite (parseTime_grammar _ _ _ _ M) in Hnone.
    destruct (Z.leb_spec 1 (decimal_value h)),
      (Z.leb_spec (decimal_value h) 12); simpl in Hnone; (done || lia).
  - intros H.
    destruct (exec timePattern s) as [caps|] eqn:E;
      [|unfold parseTime; by rewrite E].
    apply exec_sound in E.
    destruct (proj1 (timePattern_language _ _) E)
      as (h & m & ws & mer & -> & -> & Hh & Hm & Hws & Hmer).
    rewrite (parseTime_grammar _ _ _ _ E).
    specialize (H h m ws mer eq_refl Hh Hm Hws Hmer).
    destruct (Z.leb_spec 1 (decimal_value h)),
      (Z.leb_spec (decimal_value h) 12); simpl; (done || lia).
Qed.



(** ** [parseEventDateTime]: layout and duration *)

(** X4. The result depends on the captured tokens only: the weekday, the
    amount of white space and the choice between the en-dash and the
    hyphen do not change it. *)
Theorem parseEventDateTime_layout tza t1 t2 y :
  well_formed t1 → well_formed t2 → captures t1 = captures t2 →
  parseEventDateTime tza (VString (render t1)) y
  = parseEventDateTime tza (VString (render t2)) y.
Proof.
  intros W1 W2 E.
  assert (Matches eventPattern (render t1) (captures t1)) as M1
    by (apply eventPattern_language; by exists t1).
  assert (Matches eventPattern (render t2) (captures t2)) as M2
    by (apply eventPattern_language; by exists t2).
  rewrite <- E in M2. unfold captures in M1, M2.
  by rewrite (parseEventDateTime_grammar _ _ _ _ _ _ _ _ _ _ _ M1),
    (parseEventDateTime_grammar _ _ _ _ _ _ _ _ _ _ _ M2).
Qed.

Lemma parseEventDateTime_layout_witness :
  parseEventDateTime New_York
    (VString (str "Monday, Dec 8, 1:00 " ++ en_dash ++ str " 2:00 PM EST")) 2025
  = parseEventDateTime New_York
      (VString (str "Friday,  Dec   8, 1:00-2:00PM EST")) 2025.
Proof.
  assert (∀ ds, forallb is_digit ds = true →
                Forall (λ c, is_digit c = true) ds) as D
    by (intros ds H; apply Forall_forall; intros c Hc;
        apply list_elem_of_In in Hc;
        by apply (proj1 (forallb_forall _ _) H)).
  assert (∀ ds, forallb is_word ds = true →
                Forall (λ c, is_word c = true) ds) as Wd
    by (intros ds H; apply Forall_forall; intros c Hc;
        apply list_elem_of_In in Hc;
        by apply (proj1 (forallb_forall _ _) H)).
  assert (∀ ds, forallb is_space ds = true →
                Forall (λ c, is_space c = true) ds) as Sp
    by (intros ds H; apply Forall_forall; intros c Hc;
        apply list_elem_of_In in Hc;
        by apply (proj1 (forallb_forall _ _) H)).
  apply (parseEventDateTime_layout New_York
           (RangeText (str "Monday") (str " ") (str "Dec") (str " ") (str "8")
              (str " ") (str "1") (str "00") (str " ") 8211%N (str " ")
              (str "2") (str "00") (str " ") (str "PM") (str " ") (str "EST"))
           (RangeText (str "Friday") (str "  ") (str "Dec") (str "   ")
              (str "8") (str " ") (str "1") (str "00") [] 45%N []
              (str "2") (str "00") [] (str "PM") (str " ") (str "EST"))
           2025).
  - unfold well_formed, word_token, digit_token, spaces, meridiem_token.
    cbn [weekday gap1 monthName gap2 dayDigits gap3 startHourDigits
         startMinDigits gap4 dash gap5 endHourDigits endMinDigits gap6
         markerText gap7 zone].
    repeat split; try (by apply D); try (by apply Wd); try (by apply Sp);
      try done; try (vm_compute; lia). by right.
  - unfold well_formed, word_token, digit_token, spaces, meridiem_token.
    cbn [weekday gap1 monthName gap2 dayDigits gap3 startHourDigits
         startMinDigits gap4 dash gap5 endHourDigits endMinDigits gap6
         markerText gap7 zone].
    repeat split; try (by apply D); try (by apply Wd); try (by apply Sp);
      try done; try (vm_compute; lia). by right.
  - reflexivity.
Defined.

(** X5. The end of a range is the start moved by the difference of the two
    converted clock times, less the change of the offset of the zone from
    the first local time to the second. The difference can be negative:
    no day is added when the end falls before the start. So the range
    lasts as long as its clock times say whenever the zone has one offset
    for both. *)
Theorem parseEventDateTime_duration tza
  s y mon dd sh sm eh em mer tz month pm r a b :
  Matches eventPattern s [mon; dd; sh; sm; eh; em; mer; tz] →
  MONTHS !! substring (toLowerCase mon) 0 3 = Some month →
  toUpperCase mer = marker pm →
  100 ≤ y →
  parseEventDateTime tza (VString s) y = Some r →
  startDate r = Some a → endDate r = Some b →
  let startLocal :=
    local_value (spec_year month y) month (decimal_value dd)
      (spec_start_hour pm (decimal_value sh)) (decimal_value sm) in
  let endLocal :=
    local_value (spec_year month y) month (decimal_value dd)
      (spec_end_hour pm (decimal_value eh)) (decimal_value em) in
  b - a
  = (spec_end_hour pm (decimal_value eh)
     - spec_start_hour pm (decimal_value sh)) * msPerHour
    + (decimal_value em - decimal_value sm) * msPerMinute
    - (tza endLocal false - tza startLocal false).
Proof.
  intros M Hmonth Hmer Hy Hr Ha Hb. cbv zeta.
  pose proof (MONTHS_range _ _ Hmonth) as Hm.
  rewrite (parseEventDateTime_grammar _ _ _ _ _ _ _ _ _ _ _ M), Hmonth in Hr.
  cbn zeta in Hr. rewrite (marker_PM _ _ Hmer), (month_rule _ _ Hm) in Hr.
  injection Hr as <-.
  unfold range_of in Ha, Hb. cbn [startDate endDate] in Ha, Hb.
  assert (100 ≤ spec_year month y) as Hyr
    by (unfold spec_year; destruct (month =? 11); lia).
  apply newDate_Some in Ha; [|done]. apply newDate_Some in Hb; [|done].
  rewrite spec_hours_agree in *. subst a b.
  set (ta := tza (local_value _ _ _ (spec_end_hour pm (decimal_value sh)) _)
               false).
  set (tb := tza (local_value _ _ _ (spec_end_hour pm (decimal_value eh)) _)
               false).
  unfold UTC. fold ta tb.
  unfold local_value, MakeDate, MakeTime. lia.
Qed.

Lemma parseEventDateTime_duration_witness :
  1772955000000 - 1772951400000
  = (spec_end_hour false (decimal_value (str "3"))
     - spec_start_hour false (decimal_value (str "1"))) * msPerHour
    + (decimal_value (str "30") - decimal_value (str "30")) * msPerMinute
    - (New_York
         (local_value (spec_year 2 2025) 2 (decimal_value (str "8"))
            (spec_end_hour false (decimal_value (str "3")))
            (decimal_value (str "30"))) false
       - New_York
           (local_value (spec_year 2 2025) 2 (decimal_value (str "8"))
              (spec_start_hour false (decimal_value (str "1")))
              (decimal_value (str "30"))) false).
Proof.
  apply (parseEventDateTime_duration New_York
           (str "Sunday, Mar 8, 1:30 - 3:30 AM EST")
           2025 (str "Mar") (str "8") (str "1") (str "30") (str "3")
           (str "30") (str "AM") (str "EST") 2 false
           (range_of New_York 2026 2 8 1 30 3 30 (str "EST"))).
  - apply exec_sound. vm_compute. reflexivity.
  - vm_compute. reflexivity.
  - reflexivity.
  - lia.
  - vm_compute. reflexivity.
  - vm_compute. reflexivity.
  - vm_compute. reflexivity.
Defined.

(** ** [formatISODate] *)

Lemma decimal_value_snoc ds c :
  decimal_value (ds ++ [c]) = 10 * decimal_value ds + (Z.of_N c - 48).
Proof. unfold decimal_value. by rewrite fold_left_app. Qed.

(** A fixed-width field reads back as the number it was written from. *)
Lemma fixed_width_value k n :
  0 ≤ n < 10 ^ Z.of_nat k →
  decimal_value (fixed_width k n) = n ∧ length (fixed_width k n) = k
  ∧ Forall (λ c, is_digit c = true) (fixed_width k n).
Proof.
  revert n. induction k as [|k IH]; intros n Hn.
  - simpl in *. repeat split; [unfold decimal_value; simpl; lia|constructor].
  - rewrite Nat2Z.inj_succ, Z.pow_succ_r in Hn by lia.
    destruct (IH (n / 10)) as (Hv & Hl & Hd).
    { split; [apply Z.div_pos; lia|apply Z.div_lt_upper_bound; lia]. }
    cbn [fixed_width]. rewrite decimal_value_snoc, Hv, length_app, Hl.
    pose proof (Z.mod_pos_bound n 10 ltac:(lia)).
    repeat split.
    + rewrite Z2N.id by lia. pose proof (Z.div_mod n 10 ltac:(lia)). lia.
    + simpl. lia.
    + apply Forall_app. split; [done|]. constructor; [|constructor].
      unfold is_digit, between. apply andb_true_iff.
      split; apply N.leb_le; lia.
Qed.

Lemma enumerate (P : Z → bool) (lo n : Z) :
  forallb (λ k, P (lo + Z.of_nat k)) (seq 0 (Z.to_nat n)) = true →
  ∀ z, lo ≤ z < lo + n → P z = true.
Proof.
  intros H z Hz. rewrite forallb_forall in H.
  specialize (H (Z.to_nat (z - lo))).
  rewrite Z2Nat.id in H by lia. replace (lo + (z - lo)) with z in H by lia.
  apply H. apply in_seq. lia.
Qed.

Lemma pad_fixed_width n : 0 ≤ n ≤ 99 → pad (Some n) = fixed_width 2 n.
Proof.
  intros Hn.
  assert (forallb (λ k, bool_decide (pad (Some (0 + Z.of_nat k))
                                     = fixed_width 2 (0 + Z.of_nat k)))
            (seq 0 (Z.to_nat 100)) = true) as H by (vm_compute; reflexivity).
  pose proof (enumerate (λ z, bool_decide (pad (Some z) = fixed_width 2 z))
                0 100 H n ltac:(lia)) as H'.
  cbv beta in H'. by apply bool_decide_eq_true_1 in H'.
Qed.

Lemma year_fixed_width y :
  1000 ≤ y ≤ 9999 → number_toString (Some y) = fixed_width 4 y.
Proof.
  intros Hy.
  assert (forallb (λ k, bool_decide
                          (number_toString (Some (1000 + Z.of_nat k))
                           = fixed_width 4 (1000 + Z.of_nat k)))
            (seq 0 (Z.to_nat 9000)) = true) as H by (vm_compute; reflexivity).
  pose proof (enumerate
                (λ z, bool_decide (number_toString (Some z) = fixed_width 4 z))
                1000 9000 H y ltac:(lia)) as H'.
  cbv beta in H'. by apply bool_decide_eq_true_1 in H'.
Qed.

(** X6. A date built from fields inside the calendar ranges, with a
    four-digit year and a local time that the zone keeps, is written as
    [YYYYMMDDTHHMMSS] with these fields: fifteen characters, every field
    padded with zeros to its width, the month counted from 1, the seconds
    00. *)
Theorem formatISODate_fixed_width tza y m d h mi :
  1000 ≤ y ≤ 9999 → 0 ≤ m ≤ 11 → 1 ≤ d ≤ days_in_month y m →
  0 ≤ h ≤ 23 → 0 ≤ mi ≤ 59 →
  kept_by_zone tza (local_value y m d h mi) →
  formatISODate tza
    (newDate tza (Some y) (Some m) (Some d) (Some h) (Some mi))
  = fixed_width 4 y ++ fixed_width 2 (m + 1) ++ fixed_width 2 d ++ str "T"
    ++ fixed_width 2 h ++ fixed_width 2 mi ++ str "00"
  ∧ length
      (formatISODate tza
         (newDate tza (Some y) (Some m) (Some d) (Some h) (Some mi)))
    = 15%nat.
Proof.
  intros Hy Hm Hd Hh Hmi Hkept.
  destruct (newDate_fields tza y m d h mi) as (E1 & E2 & E3 & E4 & E5 & E6);
    [lia|done..|].
  assert (d ≤ 31) as Hd31
    by (pose proof (days_in_month_bound y m Hm); lia).
  assert (formatISODate tza
            (newDate tza (Some y) (Some m) (Some d) (Some h) (Some mi))
          = fixed_width 4 y ++ fixed_width 2 (m + 1) ++ fixed_width 2 d
            ++ str "T" ++ fixed_width 2 h ++ fixed_width 2 mi ++ str "00")
    as E.
  { unfold formatISODate. rewrite E1, E2, E3, E4, E5, E6. cbn [num_add].
    rewrite year_fixed_width by done.
    rewrite !pad_fixed_width by lia. reflexivity. }
  split; [done|]. rewrite E, !length_app.
  destruct (fixed_width_value 4 y) as (_ & -> & _); [simpl; lia|].
  destruct (fixed_width_value 2 (m + 1)) as (_ & -> & _); [simpl; lia|].
  destruct (fixed_width_value 2 d) as (_ & -> & _); [simpl; lia|].
  destruct (fixed_width_value 2 h) as (_ & -> & _); [simpl; lia|].
  destruct (fixed_width_value 2 mi) as (_ & -> & _); [simpl; lia|].
  reflexivity.
Qed.

Lemma formatISODate_fixed_width_witness :
  formatISODate New_York
    (newDate New_York (Some 2025) (Some 0) (Some 5) (Some 9) (Some 5))
  = fixed_width 4 2025 ++ fixed_width 2 (0 + 1) ++ fixed_width 2 5 ++ str "T"
    ++ fixed_width 2 9 ++ fixed_width 2 5 ++ str "00"
  ∧ length
      (formatISODate New_York
         (newDate New_York (Some 2025) (Some 0) (Some 5) (Some 9) (Some 5)))
    = 15%nat.
Proof.
  apply formatISODate_fixed_width; try lia.
  - vm_compute. split; discriminate.
  - vm_compute. split; [discriminate|reflexivity].
Defined.



(** ** [escapeICSText], read back *)

Lemma escapeICSText_units text :
  escapeICSText text = flat_map escape_unit text.
Proof.
  unfold escapeICSText.
  induction text as [|c text IH]; [reflexivity|].
  cbn [flat_map]. rewrite <- IH. clear IH.
  rewrite replace_all_cons, !replace_all_app. f_equal.
  unfold escape_unit.
  destruct (N.eqb_spec c 92) as [->|H92]; [reflexivity|].
  rewrite replace_all_single.
  destruct (N.eqb_spec c 59) as [->|H59]; [reflexivity|].
  rewrite replace_all_single.
  destruct (N.eqb_spec c 44) as [->|H44]; [reflexivity|].
  rewrite replace_all_single.
  destruct (N.eqb_spec c 10) as [->|H10]; reflexivity.
Qed.

Lemma unescape_unit c rest :
  unescapeICSText (escape_unit c ++ rest) = c :: unescapeICSText rest.
Proof.
  unfold escape_unit.
  destruct (N.eqb_spec c 92) as [->|H92]; [reflexivity|].
  destruct (N.eqb_spec c 59) as [->|H59]; [reflexivity|].
  destruct (N.eqb_spec c 44) as [->|H44]; [reflexivity|].
  destruct (N.eqb_spec c 10) as [->|H10]; [reflexivity|].
  cbn [app unescapeICSText]. by rewrite (proj2 (N.eqb_neq c 92) H92).
Qed.

(** X8. Escaping loses nothing: undoing the escapes of an escaped text
    gives the text back, so two different texts never have the same
    escaped form. *)
Theorem escapeICSText_round_trip text :
  unescapeICSText (escapeICSText text) = text
  ∧ ∀ text', escapeICSText text = escapeICSText text' → text = text'.
Proof.
  assert (∀ t, unescapeICSText (escapeICSText t) = t) as H.
  { intros t. rewrite escapeICSText_units.
    induction t as [|c t IH]; [reflexivity|].
    cbn [flat_map]. by rewrite unescape_unit, IH. }
  split; [done|]. intros text' E.
  by rewrite <- (H text), E, H.
Qed.

(** ** Escaped fields and folding *)

Lemma escapeICSText_no_LF text : 10%N ∉ escapeICSText text.
Proof.
  rewrite escapeICSText_units.
  induction text as [|c text IH]; cbn [flat_map]; [apply not_elem_of_nil|].
  rewrite elem_of_app. intros [H|H]; [|done].
  revert H. unfold escape_unit.
  destruct (N.eqb_spec c 92) as [->|H92];
    [intros H; apply list_elem_of_In in H; simpl in H; intuition discriminate|].
  destruct (N.eqb_spec c 59) as [->|H59];
    [intros H; apply list_elem_of_In in H; simpl in H; intuition discriminate|].
  destruct (N.eqb_spec c 44) as [->|H44];
    [intros H; apply list_elem_of_In in H; simpl in H; intuition discriminate|].
  destruct (N.eqb_spec c 10) as [->|H10];
    [intros H; apply list_elem_of_In in H; simpl in H; intuition discriminate|].
  rewrite elem_of_cons, elem_of_nil. intros [|]; done.
Qed.

Lemma physical_lines_from_no_LF s :
  10%N ∉ s → ∀ cur, physical_lines_from cur s = [rev cur ++ s].
Proof.
  induction s as [|c s IH]; intros Hs cur.
  - by rewrite app_nil_r.
  - rewrite not_elem_of_cons in Hs. destruct Hs as [Hc Hs].
    destruct s as [|d s'].
    + reflexivity.
    + rewrite physical_lines_from_cons2.
      rewrite not_elem_of_cons in Hs.
      assert ((d =? 10)%N = false) as ->
        by (apply N.eqb_neq; intros ->; by destruct Hs).
      rewrite andb_false_r, IH by (by apply not_elem_of_cons).
      cbn [rev]. by rewrite <- app_assoc.
Qed.

Lemma physical_lines_chunks chunk chunks :
  Forall (λ c, 10%N ∉ c) (chunk :: chunks) →
  physical_lines (join CRLF (chunk :: chunks)) = chunk :: chunks.
Proof.
  unfold physical_lines. revert chunk.
  induction chunks as [|c' chunks IH]; intros chunk Hall.
  - cbn [join]. rewrite physical_lines_from_no_LF; [done|].
    by apply Forall_inv in Hall.
  - change (join CRLF (chunk :: c' :: chunks))
      with (chunk ++ CRLF ++ join CRLF (c' :: chunks)).
    rewrite physical_lines_from_app, IH by (by apply Forall_inv_tail in Hall).
    rewrite physical_lines_from_no_LF; [done|]. by apply Forall_inv in Hall.
Qed.



(** ** Folding, read back *)

Lemma unfoldLines_cons3 c d e s :
  unfoldLines (c :: d :: e :: s)
  = if ((c =? 13) && (d =? 10) && ((e =? 32) || (e =? 9)))%N
    then unfoldLines s
    else c :: unfoldLines (d :: e :: s).
Proof. reflexivity. Qed.

Lemma unfoldLines_no_LF s : 10%N ∉ s → unfoldLines s = s.
Proof.
  induction s as [|c s IH]; intros Hs; [reflexivity|].
  rewrite not_elem_of_cons in Hs. destruct Hs as [_ Hs].
  destruct s as [|d [|e s']]; try reflexivity.
  rewrite unfoldLines_cons3.
  assert ((d =? 10)%N = false) as ->.
  { apply N.eqb_neq. intros ->. apply Hs. left. }
  rewrite andb_false_r. cbn [andb]. by rewrite IH.
Qed.

Lemma unfoldLines_joint a b :
  10%N ∉ a →
  unfoldLines (a ++ CRLF ++ 32%N :: b) = a ++ unfoldLines b.
Proof.
  induction a as [|c a IH]; intros Ha; [reflexivity|].
  rewrite not_elem_of_cons in Ha. destruct Ha as [Hc Ha].
  destruct a as [|d a'].
  - change ([c] ++ CRLF ++ 32%N :: b) with (c :: 13%N :: 10%N :: 32%N :: b).
    rewrite unfoldLines_cons3. cbn [N.eqb Pos.eqb andb]. rewrite andb_false_r.
    change (13%N :: 10%N :: 32%N :: b) with ([] ++ CRLF ++ 32%N :: b).
    rewrite IH by apply not_elem_of_nil. reflexivity.
  - assert (∃ e s, a' ++ CRLF ++ 32%N :: b = e :: s) as (e & s & E)
      by (destruct a'; simpl; eauto).
    change ((c :: d :: a') ++ CRLF ++ 32%N :: b)
      with (c :: d :: (a' ++ CRLF ++ 32%N :: b)).
    rewrite E, unfoldLines_cons3.
    assert ((d =? 10)%N = false) as ->.
    { apply N.eqb_neq. intros ->. apply Ha. left. }
    rewrite andb_false_r. cbn [andb]. rewrite <- E.
    change (d :: a' ++ CRLF ++ 32%N :: b)
      with ((d :: a') ++ CRLF ++ 32%N :: b).
    by rewrite IH.
Qed.

Lemma unfoldLines_pieces pieces :
  ∀ x, 10%N ∉ x → Forall (λ p, 10%N ∉ p) pieces →
       unfoldLines (join CRLF (x :: map (λ p, str " " ++ p) pieces))
       = x ++ concat pieces.
Proof.
  induction pieces as [|p pieces IH]; intros x Hx Hall.
  - cbn [map join concat]. rewrite app_nil_r. by apply unfoldLines_no_LF.
  - assert (join CRLF (x :: map (λ p, str " " ++ p) (p :: pieces))
            = x ++ CRLF ++ 32%N
                :: join CRLF (p :: map (λ p, str " " ++ p) pieces)) as ->.
    { cbn [map]. destruct pieces; reflexivity. }
    rewrite unfoldLines_joint by done.
    rewrite IH; [done|by apply Forall_inv in Hall
                 |by apply Forall_inv_tail in Hall].
Qed.

(** X10. Folding loses nothing: for a line without a line feed, removing
    every CRLF that a space or a tab follows, as a reader of the file does,
    gives the line back. *)
Theorem foldLine_round_trip line :
  10%N ∉ line → unfoldLines (foldLine line) = line.
Proof.
  intros Hline.
  destruct (Nat.le_gt_cases (length line) 75) as [Hle|Hgt].
  - unfold foldLine.
    assert ((length line <=? 75)%nat = true) as -> by (by apply Nat.leb_le).
    by apply unfoldLines_no_LF.
  - rewrite (foldLine_long _ Hgt).
    destruct (continuation_pieces (drop 75 line))
      as (pieces & -> & Hcat & _ & _).
    rewrite unfoldLines_pieces.
    + rewrite Hcat. apply take_drop.
    + intros Hin. apply Hline. rewrite <- (take_drop 75 line).
      apply elem_of_app. by left.
    + apply Forall_forall. intros p Hp Hin. apply Hline.
      rewrite <- (take_drop 75 line), <- Hcat. apply elem_of_app. right.
      apply list_elem_of_In, in_concat. exists p.
      split; by apply list_elem_of_In.
Qed.

Lemma foldLine_round_trip_witness :
  unfoldLines (foldLine sample_line) = sample_line.
Proof.
  apply foldLine_round_trip. intros H. apply list_elem_of_In in H.
  vm_compute in H. repeat destruct H as [H|H]; try discriminate. done.
Defined.

(** ** The characters of a unique identifier *)

Lemma number_toString_chars z :
  Forall (λ c, is_uid_char c = true) (number_toString (Some z)).
Proof.
  assert (∀ d, Forall (λ c, is_uid_char c = true)
                 (str (NilEmpty.string_of_uint d))) as Hd.
  { intros d. eapply Forall_impl; [apply uint_digits|].
    intros c Hc. unfold is_uid_char, is_base36. by rewrite Hc. }
  assert (∀ d, Forall (λ c, is_uid_char c = true)
                 (str (NilZero.string_of_uint d))) as Hz.
  { intros d. unfold NilZero.string_of_uint.
    destruct d; try apply Hd. by repeat constructor. }
  unfold number_toString, Z.to_int.
  destruct z as [|p|p]; cbn [NilZero.string_of_int].
  - by repeat constructor.
  - apply Hz.
  - change (str (String "-" ?s)) with (45%N :: str s).
    constructor; [done|apply Hz].
Qed.

Lemma digit36_char d : 0 ≤ d < 36 → is_uid_char (digit36 d) = true.
Proof.
  intros Hd. unfold is_uid_char, is_base36, is_digit, between, digit36.
  destruct (Z.ltb_spec d 10).
  - assert ((48 <=? Z.to_N (48 + d))%N = true) as -> by (apply N.leb_le; lia).
    assert ((Z.to_N (48 + d) <=? 57)%N = true) as -> by (apply N.leb_le; lia).
    reflexivity.
  - assert ((97 <=? Z.to_N (87 + d))%N = true) as -> by (apply N.leb_le; lia).
    assert ((Z.to_N (87 + d) <=? 122)%N = true) as -> by (apply N.leb_le; lia).
    by rewrite orb_true_r.
Qed.

Lemma radix36_chars fuel :
  ∀ n acc, 0 ≤ n → Forall (λ c, is_uid_char c = true) acc →
           Forall (λ c, is_uid_char c = true) (radix36 fuel n acc).
Proof.
  induction fuel as [|fuel IH]; intros n acc Hn Hacc; cbn [radix36]; [done|].
  destruct (Z.ltb_spec n 36).
  - constructor; [apply digit36_char; lia|done].
  - apply IH; [apply Z.div_pos; lia|].
    constructor; [|done]. apply digit36_char.
    apply Z.mod_pos_bound. lia.
Qed.

Lemma plain_text_unescaped s :
  Forall (λ c, is_uid_char c = true) s → escapeICSText s = s.
Proof.
  intros H. rewrite escapeICSText_units.
  induction H as [|c s Hc _ IH]; [reflexivity|].
  cbn [flat_map]. rewrite IH.
  assert (escape_unit c = [c]) as ->; [|reflexivity].
  unfold escape_unit. revert Hc.
  unfold is_uid_char, is_base36, is_digit, between.
  destruct (N.eqb_spec c 92) as [->|_]; [done|].
  destruct (N.eqb_spec c 59) as [->|_]; [done|].
  destruct (N.eqb_spec c 44) as [->|_]; [done|].
  destruct (N.eqb_spec c 10) as [->|_]; done.
Qed.

Lemma toString36_chars z : Forall (λ c, is_uid_char c = true) (toString36 z).
Proof.
  unfold toString36. destruct (_ <? 0).
  - apply Forall_app. split; [by repeat constructor|].
    apply radix36_chars; [lia|constructor].
  - apply radix36_chars; [lia|constructor].
Qed.

(** X11. When the random part is made of base-36 digits, a unique
    identifier consists of digits, the letters a to z, hyphens, the at sign
    and dots only: it holds nothing that escaping would change and no line
    break. *)
Theorem generateUID_characters ev env :
  Forall (λ c, is_base36 c = true) (random_digits env) →
  Forall (λ c, is_uid_char c = true) (generateUID ev env)
  ∧ escapeICSText (generateUID ev env) = generateUID ev env.
Proof.
  intros Hr.
  assert (Forall (λ c, is_uid_char c = true) (generateUID ev env)) as H.
  { unfold generateUID. repeat (apply Forall_app; split).
    - apply number_toString_chars.
    - by repeat constructor.
    - eapply Forall_impl; [exact Hr|].
      intros c Hc. unfold is_uid_char. by rewrite Hc.
    - by repeat constructor.
    - apply toString36_chars.
    - by repeat constructor. }
  split; [done|by apply plain_text_unescaped].
Qed.

Lemma generateUID_characters_witness :
  Forall (λ c, is_uid_char c = true)
    (generateUID sample_event sample_environment)
  ∧ escapeICSText (generateUID sample_event sample_environment)
    = generateUID sample_event sample_environment.
Proof.
  apply generateUID_characters. by repeat constructor.
Defined.

(** ** The Google Calendar link *)

Lemma code_points_ascii s :
  Forall (λ c, (c <? 128)%N = true) s → flat_map utf8 (code_points s) = s.
Proof.
  induction 1 as [|c s Hc _ IH]; [reflexivity|].
  cbn [code_points].
  assert (is_high_surrogate c = false ∧ is_low_surrogate c = false)
    as [-> ->].
  { apply N.ltb_lt in Hc. unfold is_high_surrogate, is_low_surrogate, between.
    split; apply andb_false_iff; left; apply N.leb_gt; lia. }
  cbn [flat_map]. rewrite IH. unfold utf8. by rewrite Hc.
Qed.

Lemma form_encode_ascii s :
  Forall (λ c, (c <? 128)%N = true) s → form_encode s = flat_map form_byte s.
Proof. intros H. unfold form_encode. by rewrite code_points_ascii. Qed.

Lemma form_safe_ascii c : is_form_safe c = true → (c <? 128)%N = true.
Proof.
  unfold is_form_safe. class_facts. intros H. apply N.ltb_lt. lia.
Qed.

Lemma form_encode_safe s :
  Forall (λ c, is_form_safe c = true) s → form_encode s = s.
Proof.
  intros H. rewrite form_encode_ascii
    by (eapply Forall_impl; [exact H|apply form_safe_ascii]).
  induction H as [|c s Hc _ IH]; [reflexivity|].
  cbn [flat_map]. rewrite IH. unfold form_byte. rewrite Hc.
  assert ((c =? 32)%N = false) as ->; [|reflexivity].
  apply N.eqb_neq. intros ->. done.
Qed.

Lemma hex_digit_char n : (n < 16)%N → is_form_safe (hex_digit n) = true.
Proof.
  intros Hn. unfold hex_digit. destruct (N.ltb_spec n 10);
    unfold is_form_safe; class_facts; lia.
Qed.

Lemma form_byte_chars b : Forall (λ c, is_form_char c = true) (form_byte b).
Proof.
  unfold form_byte, is_form_char.
  destruct (N.eqb_spec b 32); [by repeat constructor|].
  destruct (is_form_safe b) eqn:E; [constructor; [by rewrite E|constructor]|].
  repeat constructor.
  - rewrite hex_digit_char; [done|]. apply N.mod_lt. lia.
  - rewrite hex_digit_char; [done|]. apply N.mod_lt. lia.
Qed.

Lemma form_encode_chars s : Forall (λ c, is_form_char c = true) (form_encode s).
Proof.
  unfold form_encode. induction (flat_map utf8 (code_points s)) as [|b l IH];
    cbn [flat_map]; [constructor|].
  apply Forall_app. split; [apply form_byte_chars|done].
Qed.

Lemma number_toString_safe n :
  Forall (λ c, is_form_safe c = true) (number_toString n).
Proof.
  destruct n as [z|]; [|by repeat constructor].
  assert (∀ d, Forall (λ c, is_form_safe c = true)
                 (str (NilEmpty.string_of_uint d))) as Hd.
  { intros d. eapply Forall_impl; [apply uint_digits|].
    intros c Hc. unfold is_form_safe. by rewrite Hc. }
  assert (∀ d, Forall (λ c, is_form_safe c = true)
                 (str (NilZero.string_of_uint d))) as Hz.
  { intros d. unfold NilZero.string_of_uint.
    destruct d; try apply Hd. by repeat constructor. }
  unfold number_toString, Z.to_int.
  destruct z as [|p|p]; cbn [NilZero.string_of_int].
  - by repeat constructor.
  - apply Hz.
  - change (str (String "-" ?s)) with (45%N :: str s).
    constructor; [done|apply Hz].
Qed.

Lemma pad_safe n : Forall (λ c, is_form_safe c = true) (pad n).
Proof.
  unfold pad, padStart2. apply Forall_app. split;
    [|apply number_toString_safe].
  apply Forall_replicate. done.
Qed.

Lemma formatISODate_safe tza date :
  Forall (λ c, is_form_safe c = true) (formatISODate tza date).
Proof.
  unfold formatISODate. cbv zeta.
  repeat (apply Forall_app; split);
    try apply number_toString_safe; try (by apply Forall_replicate).
  change (str "T") with [84%N]. by repeat constructor.
Qed.

Lemma formatISODate_pair tza a b :
  form_encode (formatISODate tza a ++ str "/" ++ formatISODate tza b)
  = formatISODate tza a ++ str "%2F" ++ formatISODate tza b.
Proof.
  pose proof (formatISODate_safe tza a) as Ha.
  pose proof (formatISODate_safe tza b) as Hb.
  rewrite form_encode_ascii.
  - rewrite !flat_map_app.
    rewrite <- (form_encode_ascii (formatISODate tza a))
      by (eapply Forall_impl; [exact Ha|apply form_safe_ascii]).
    rewrite <- (form_encode_ascii (formatISODate tza b))
      by (eapply Forall_impl; [exact Hb|apply form_safe_ascii]).
    by rewrite !form_encode_safe.
  - apply Forall_app. split;
      [by eapply Forall_impl; [exact Ha|apply form_safe_ascii]|].
    change (str "/") with [47%N]. constructor; [done|].
    by eapply Forall_impl; [exact Hb|apply form_safe_ascii].
Qed.

Lemma params_set_new name value l :
  name ∉ l.*1 → params_set name value l = l ++ [(name, value)].
Proof.
  induction l as [|[n v] l IH]; [done|].
  cbn [params_set fmap list_fmap fst]. intros H.
  apply not_elem_of_cons in H as [H1 H2].
  rewrite bool_decide_eq_false_2 by done. by rewrite IH.
Qed.

Ltac fresh_name :=
  cbn [fmap list_fmap fst];
  repeat (apply not_elem_of_cons; split; [by vm_compute|]);
  apply not_elem_of_nil.

(** X12. The link to Google Calendar is the address of the service, then
    [action=TEMPLATE], the title, the two compact timestamps around [%2F],
    and the location and the details when they are present and not
    empty, in this order. The title, the location and the details are
    written in letters, digits, [*], [-], [.], [_], [+] and [%] only, so no
    text of an event ends a parameter or starts another one. *)
Theorem generateGoogleCalendarLink_query tza ev :
  generateGoogleCalendarLink tza ev
  = str "https://www.google.com/calendar/render?action=TEMPLATE&text="
    ++ form_encode (event_title ev)
    ++ str "&dates=" ++ formatISODate tza (event_startDate ev)
    ++ str "%2F" ++ formatISODate tza (event_endDate ev)
    ++ optional_param (str "location") (event_location ev)
    ++ optional_param (str "details") (event_description ev)
  ∧ ∀ field, Forall (λ c, is_form_char c = true) (form_encode field).
Proof.
  split; [|apply form_encode_chars].
  unfold generateGoogleCalendarLink. cbv zeta.
  rewrite !params_set_new by fresh_name.
  pose proof (formatISODate_pair tza (event_startDate ev) (event_endDate ev))
    as Hd.
  destruct (event_location ev) as [[|c v]|],
    (event_description ev) as [[|d w]|];
    cbn [set_if_present optional_param];
    rewrite ?params_set_new by fresh_name;
    unfold params_toString;
    cbn [map app fst snd]; rewrite Hd;
    cbn [join]; rewrite ?app_nil_r, <- ?app_assoc; reflexivity.
Qed.

Lemma utf8_bytes cp : Forall (λ b, (b < 256)%N) (utf8 cp).
Proof.
  unfold utf8.
  destruct (N.ltb_spec cp 128); [|destruct (N.ltb_spec cp 2048);
    [|destruct (N.ltb_spec cp 65536)]];
    repeat apply Forall_cons_2; try apply Forall_nil_2; cbv beta;
    zify; Z.to_euclidean_division_equations; lia.
Qed.

Lemma hex_value_digit n : (n < 16)%N → hex_value (hex_digit n) = n.
Proof.
  intros Hn. unfold hex_value, hex_digit.
  destruct (N.ltb_spec n 10).
  - assert (is_digit (48 + n) = true) as -> by (class_facts; lia). lia.
  - assert (is_digit (55 + n) = false) as -> by (class_facts; lia).
    assert (between 65 70 (55 + n) = true) as -> by (class_facts; lia). lia.
Qed.

Lemma form_decode_byte b rest :
  (b < 256)%N → form_decode (form_byte b ++ rest) = b :: form_decode rest.
Proof.
  intros Hb. unfold form_byte.
  destruct (N.eqb_spec b 32) as [->|H32]; [reflexivity|].
  destruct (is_form_safe b) eqn:E.
  - cbn [app form_decode].
    destruct (N.eqb_spec b 43) as [->|_]; [done|].
    destruct (N.eqb_spec b 37) as [->|_]; [done|]. reflexivity.
  - cbn [app form_decode]. change (37 =? 43)%N with false.
    change (37 =? 37)%N with true. cbv iota.
    rewrite !hex_value_digit by (apply N.mod_lt; lia).
    f_equal. zify; Z.to_euclidean_division_equations; lia.
Qed.

(** X13. Reading a value of the link back gives the text that was
    written, in UTF-8: a plus sign as a space and a percent sign with its
    two digits as one byte. So two texts are written alike only when
    their UTF-8 bytes are the same. *)
Theorem form_encode_round_trip text :
  form_decode (form_encode text) = flat_map utf8 (code_points text)
  ∧ ∀ text', form_encode text = form_encode text' →
      flat_map utf8 (code_points text) = flat_map utf8 (code_points text').
Proof.
  assert (∀ s, form_decode (form_encode s) = flat_map utf8 (code_points s))
    as Hdec.
  { intros s. unfold form_encode.
    assert (Forall (λ b, (b < 256)%N) (flat_map utf8 (code_points s))) as Hb.
    { induction (code_points s) as [|cp l IH]; cbn [flat_map]; [constructor|].
      apply Forall_app. split; [apply utf8_bytes|done]. }
    induction Hb as [|b l Hb _ IH]; [reflexivity|].
    cbn [flat_map]. by rewrite form_decode_byte, IH. }
  split; [apply Hdec|].
  intros text' E. by rewrite <- !Hdec, E.
Qed.

(** ** The slug of an address *)

Lemma split_slash_last url :
  ∃ parts slug, split_slash url = parts ++ [slug] ∧ (47%N ∉ slug)
    ∧ (parts = [] → url = slug)
    ∧ (parts ≠ [] → ∃ p, url = p ++ 47%N :: slug).
Proof.
  induction url as [|c url (parts & slug & E & Hno & Hone & Hmore)].
  - exists [], []. split; [done|]. split; [apply not_elem_of_nil|done].
  - cbn [split_slash]. rewrite E. destruct (N.eqb_spec c 47) as [->|Hc].
    + exists ([] :: parts), slug. split; [done|]. split; [done|].
      split; [done|]. intros _. destruct parts as [|part parts].
      * exists []. by rewrite Hone.
      * destruct Hmore as (p & ->); [done|]. by exists (47%N :: p).
    + destruct parts as [|part parts]; cbn [app].
      * exists [], (c :: slug). split; [done|].
        split; [by apply not_elem_of_cons|].
        split; [|done]. intros _. by rewrite Hone.
      * exists ((c :: part) :: parts), slug. split; [done|]. split; [done|].
        split; [done|]. intros _.
        destruct Hmore as (p & ->); [done|]. by exists (c :: p).
Qed.

(** X14. The slug of an address is always there (never [undefined]). It
    holds no slash, and it is what follows the last slash of the address,
    or all of an address without a slash. *)
Theorem extractSlug_after_last_slash url :
  ∃ slug, extractSlug url = Some slug ∧ (47%N ∉ slug)
    ∧ (url = slug ∨ ∃ p, url = p ++ 47%N :: slug).
Proof.
  destruct (split_slash_last url) as (parts & slug & E & Hno & Hone & Hmore).
  exists slug. unfold extractSlug. cbv zeta. rewrite E.
  split; [|split; [done|]].
  - rewrite length_app. cbn [length].
    replace (length parts + 1 - 1)%nat with (length parts) by lia.
    by rewrite list_lookup_middle.
  - destruct parts; [left; by apply Hone|right; by apply Hmore].
Qed.

(** ** The name of a file *)

Lemma replace_runs_shape b s :
  Forall (λ c, is_dash_or_slug_char c = true) (replace_runs b s)
  ∧ single_dashes (replace_runs b s) = true
  ∧ (b = true → head (replace_runs b s) ≠ Some 45%N).
Proof.
  revert b. induction s as [|c s IH]; intros b; [done|].
  cbn [replace_runs]. destruct (is_slug_char c) eqn:Ec.
  - destruct (IH false) as (H1 & H2 & _). split; [|split].
    + constructor; [|done]. unfold is_dash_or_slug_char. by rewrite Ec.
    + cbn [single_dashes]. destruct (replace_runs false s); [done|].
      rewrite H2. assert ((c =? 45)%N = false) as ->; [|done].
      apply N.eqb_neq. by intros ->.
    + intros _ [= ->]. done.
  - destruct b.
    + apply IH.
    + destruct (IH true) as (H1 & H2 & H3). split; [|split; [|done]].
      * by constructor.
      * cbn [single_dashes]. destruct (replace_runs true s) as [|d l]; [done|].
        rewrite H2. assert ((d =? 45)%N = false) as ->; [|done].
        apply N.eqb_neq. intros ->. by apply H3.
Qed.

Lemma single_dashes_tail c s :
  single_dashes (c :: s) = true → single_dashes s = true.
Proof.
  cbn [single_dashes]. destruct s; [done|].
  by intros [_ H]%andb_true_iff.
Qed.

Lemma drop_leading_dashes_shape s :
  Forall (λ c, is_dash_or_slug_char c = true) s →
  single_dashes s = true →
  Forall (λ c, is_dash_or_slug_char c = true) (drop_leading_dashes s)
  ∧ single_dashes (drop_leading_dashes s) = true
  ∧ head (drop_leading_dashes s) ≠ Some 45%N.
Proof.
  induction 1 as [|c s Hc Hs IH]; intros Hd; [done|].
  cbn [drop_leading_dashes]. destruct (N.eqb_spec c 45) as [->|Hc'].
  - apply IH. by eapply single_dashes_tail.
  - split; [by constructor|]. split; [done|]. by intros [= ->].
Qed.

Lemma drop_trailing_dashes_shape s :
  Forall (λ c, is_dash_or_slug_char c = true) s →
  single_dashes s = true →
  head s ≠ Some 45%N →
  Forall (λ c, is_dash_or_slug_char c = true) (drop_trailing_dashes s)
  ∧ single_dashes (drop_trailing_dashes s) = true
  ∧ head (drop_trailing_dashes s) ≠ Some 45%N
  ∧ last (drop_trailing_dashes s) ≠ Some 45%N.
Proof.
  assert (∀ s, Forall (λ c, is_dash_or_slug_char c = true) s →
               single_dashes s = true →
    Forall (λ c, is_dash_or_slug_char c = true) (drop_trailing_dashes s)
    ∧ single_dashes (drop_trailing_dashes s) = true
    ∧ head (drop_trailing_dashes s) = (if forallb (λ d, d =? 45)%N s
                                       then None else head s)
    ∧ last (drop_trailing_dashes s) ≠ Some 45%N) as H.
  { clear s. induction 1 as [|c s Hc Hs IH]; intros Hd; [done|].
    cbn [drop_trailing_dashes].
    destruct (forallb (λ d, d =? 45)%N (c :: s)) eqn:Ea; [done|].
    destruct (IH (single_dashes_tail _ _ Hd)) as (H1 & H2 & H3 & H4).
    split; [by constructor|]. split; [|split; [done|]].
    - cbn [single_dashes]. destruct (drop_trailing_dashes s) as [|d l] eqn:El;
        [done|]. rewrite H2.
      destruct s as [|d' s']; [done|].
      cbn [head] in H3. destruct (forallb _ (d' :: s')); [done|].
      injection H3 as ->. cbn [single_dashes] in Hd.
      apply andb_true_iff in Hd as [-> _]. done.
    - destruct (drop_trailing_dashes s) as [|d l] eqn:El.
      + cbn [last]. intros [= ->].
        cbn [forallb] in Ea. rewrite N.eqb_refl in Ea. cbn [andb] in Ea.
        destruct (forallb (λ d, d =? 45)%N s) eqn:Es; [done|].
        clear -El Es. destruct s as [|c s]; [done|].
        cbn [drop_trailing_dashes] in El. by rewrite Es in El.
      + by rewrite last_cons_cons. }
  intros H1 H2 H3. destruct (H s H1 H2) as (G1 & G2 & G3 & G4).
  repeat split; try done. rewrite G3.
  by destruct (forallb _ s).
Qed.

Lemma single_dashes_infix l1 l2 :
  single_dashes (l1 ++ [45; 45]%N ++ l2) = false.
Proof.
  induction l1 as [|c l1 IH]; [done|].
  cbn [app single_dashes] in *.
  destruct (l1 ++ 45%N :: 45%N :: l2) eqn:E; [by destruct l1|].
  rewrite IH. apply andb_false_r.
Qed.

(** X15. The slug of a title, the name of the downloaded file, is made of
    the letters a to z, digits and dashes only, whatever the title is: it
    neither starts nor ends with a dash and has no two dashes in a row. *)
Theorem slugify_shape (lower : list N → list N) (title : list N) :
  Forall (λ c, is_slug_char c = true ∨ c = 45%N) (slugify lower title)
  ∧ head (slugify lower title) ≠ Some 45%N
  ∧ last (slugify lower title) ≠ Some 45%N
  ∧ ∀ l1 l2, slugify lower title ≠ l1 ++ [45; 45]%N ++ l2.
Proof.
  unfold slugify.
  destruct (replace_runs_shape false (lower title)) as (A1 & A2 & _).
  destruct (drop_leading_dashes_shape _ A1 A2) as (B1 & B2 & B3).
  destruct (drop_trailing_dashes_shape _ B1 B2 B3) as (C1 & C2 & C3 & C4).
  split; [|split; [done|split; [done|]]].
  - eapply Forall_impl; [exact C1|]. intros c.
    unfold is_dash_or_slug_char. rewrite orb_true_iff, N.eqb_eq. tauto.
  - intros l1 l2 E. rewrite E in C2. by rewrite single_dashes_infix in C2.
Qed.

(** ** An event made ready for export *)

(** X16. Making an event ready fails with a [TypeError] exactly when its
    date text is no date range. Otherwise the result has the title and
    the location of the card and the two parsed dates, and its address
    starts with http: it is the address of the card, or that address
    after the address of the community. *)
Theorem prepareEventForExport_outcome tza (ev : scrapedEvent) (now : Z) :
  match parseEventDateTime tza (VString (scraped_dateTimeStr ev))
          (YearFromTime (LocalTime tza now)) with
  | None => prepareEventForExport tza ev now = None
  | Some parsed =>
      ∃ u d,
        prepareEventForExport tza ev now
        = Some (Event (scraped_title ev) (startDate parsed) (endDate parsed)
                  (Some (scraped_location ev)) (Some u) (Some d))
        ∧ startsWith u (str "http") = true
        ∧ (u = scraped_url ev
           ∨ (startsWith (scraped_url ev) (str "http") = false
              ∧ u = str "https://community.dynamous.ai" ++ scraped_url ev))
  end.
Proof.
  unfold prepareEventForExport. cbv zeta.
  destruct (parseEventDateTime _ _ _) as [parsed|]; [|reflexivity].
  eexists _, _. split; [reflexivity|].
  destruct (startsWith (scraped_url ev) (str "http")) eqn:E.
  - split; [done|by left].
  - split; [reflexivity|by right].
Qed.

(** ** The record of the exports *)

(** X17. Recording an export adds its slug and its kind to what the
    storage holds and takes nothing away; the cache of the popup then
    answers as the storage does, whatever it held before, and the event
    counts as exported. *)
Theorem trackExport_recorded (slug exportType : list N) (now : Z)
  (st : exports) (slug' exportType' : list N) :
  let st' := trackExport slug exportType now st in
  isEventExported slug' exportType' st'
  = isEventExported slug' exportType' st
    || bool_decide (slug' = slug ∧ exportType' = exportType)
  ∧ isEventExportedSync slug' exportType' st'
    = isEventExported slug' exportType' st'
  ∧ hasAnyExport slug st' = true
  ∧ getExportedEvents st' = exportedEventsCache st'.
Proof.
  cbv zeta. unfold isEventExported, isEventExportedSync, hasAnyExport,
    getExportedEvents, trackExport, stored.
  cbv zeta. cbn [storage_exportedEvents exportedEventsCache from_option id].
  split; [|split; [done|split; [|done]]].
  - rewrite existsb_app. f_equal. cbn [existsb]. rewrite orb_false_r.
    unfold same_export. cbn [export_slug export_exportType].
    rewrite <- bool_decide_and. apply bool_decide_ext.
    split; intros [-> ->]; done.
  - rewrite existsb_app. cbn [existsb export_slug].
    rewrite bool_decide_eq_true_2 by done. apply orb_true_r.
Qed.

(** ** The physical lines of a calendar file *)

Lemma continuation_seq r :
  continuation r
  = map (λ k, 32%N :: take 74 (drop (74 * k) r))
      (seq 0 ((length r + 73) / 74)).
Proof.
  remember (length r) as n eqn:Hn. revert r Hn.
  induction n as [n IH] using lt_wf_ind. intros [|c r] ->.
  - by simp continuation.
  - rewrite continuation_cons.
    rewrite (IH (length (drop 74 (c :: r))))
      by (rewrite ?length_drop; simpl; lia).
    assert (((length (c :: r) + 73) / 74
             = S ((length (drop 74 (c :: r)) + 73) / 74))%nat) as ->.
    { rewrite length_drop. cbn [length]. set (L := length r).
      destruct (Nat.le_gt_cases 73 L).
      - replace (S L + 73)%nat with (1 * 74 + (S L - 74 + 73))%nat by lia.
        rewrite Nat.div_add_l by lia. lia.
      - replace (S L - 74)%nat with 0%nat by lia.
        rewrite (Nat.div_small (0 + 73) 74) by lia.
        replace (S L + 73)%nat with (1 * 74 + L)%nat by lia.
        rewrite Nat.div_add_l by lia. rewrite Nat.div_small by lia. lia. }
    rewrite <- cons_seq, <- fmap_S_seq. cbn [map].
    f_equal. change (fmap S (seq 0 ?n)) with (map S (seq 0 n)).
    rewrite map_map. apply map_ext. intros k.
    rewrite drop_drop. do 3 f_equal. lia.
Qed.

Lemma foldLine_spec_fold line : foldLine line = join CRLF (spec_fold line).
Proof.
  unfold spec_fold. destruct (length line <=? 75)%nat eqn:E.
  - unfold foldLine. by rewrite E.
  - apply Nat.leb_gt in E. rewrite (foldLine_long _ E), continuation_seq.
    rewrite length_drop. do 2 f_equal. apply map_ext. intros k.
    by rewrite drop_drop.
Qed.

Lemma spec_fold_nonempty line : spec_fold line ≠ [].
Proof. unfold spec_fold. by destruct (length line <=? 75)%nat. Qed.

Lemma spec_fold_no_LF line :
  10%N ∉ line → Forall (λ l, 10%N ∉ l) (spec_fold line).
Proof.
  intros H.
  assert (∀ n, 10%N ∉ take n line) as Ht.
  { intros n Hin. apply H. rewrite <- (take_drop n line).
    apply elem_of_app. by left. }
  assert (∀ n, 10%N ∉ drop n line) as Hd.
  { intros n Hin. apply H. rewrite <- (take_drop n line).
    apply elem_of_app. by right. }
  unfold spec_fold. destruct (length line <=? 75)%nat; [by constructor|].
  constructor; [apply Ht|]. apply Forall_forall. intros l Hl.
  apply list_elem_of_In, in_map_iff in Hl. destruct Hl as (k & <- & _).
  apply not_elem_of_cons. split; [done|].
  intros Hin. apply (Hd (75 + 74 * k)%nat).
  rewrite <- (take_drop 74 (drop (75 + 74 * k) line)).
  apply elem_of_app. by left.
Qed.

Lemma join_app (a b : list (list N)) :
  a ≠ [] → b ≠ [] →
  join CRLF (a ++ b) = join CRLF a ++ CRLF ++ join CRLF b.
Proof.
  intros Ha Hb. induction a as [|x a IH]; [done|].
  destruct a as [|y a].
  - destruct b as [|z b]; [done|]. reflexivity.
  - change (join CRLF ((x :: y :: a) ++ b))
      with (x ++ CRLF ++ join CRLF ((y :: a) ++ b)).
    rewrite IH by done.
    change (join CRLF (x :: y :: a)) with (x ++ CRLF ++ join CRLF (y :: a)).
    by rewrite <- !app_assoc.
Qed.

Lemma join_concat (groups : list (list (list N))) :
  Forall (λ g, g ≠ []) groups →
  join CRLF (map (join CRLF) groups) = join CRLF (concat groups).
Proof.
  induction 1 as [|g groups Hg Hall IH]; [reflexivity|].
  destruct groups as [|g' groups].
  - cbn [map join concat]. by rewrite app_nil_r.
  - change (join CRLF (map (join CRLF) (g :: g' :: groups)))
      with (join CRLF g ++ CRLF
            ++ join CRLF (map (join CRLF) (g' :: groups))).
    rewrite IH. cbn [concat].
    rewrite (join_app g (g' ++ concat groups)); [done|done|].
    apply Forall_inv in Hall. by destruct g'.
Qed.

Lemma generateICS_spec_fold tza ev env :
  generateICS tza ev env
  = join CRLF (concat (map spec_fold (generateICS_lines tza ev env))).
Proof.
  unfold generateICS.
  rewrite <- join_concat
    by (apply Forall_forall; intros g Hg;
        apply list_elem_of_In, in_map_iff in Hg; destruct Hg as (l & <- & _);
        apply spec_fold_nonempty).
  rewrite map_map. f_equal. apply map_ext. intros l. apply foldLine_spec_fold.
Qed.

Lemma uid_chars_no_LF s : Forall (λ c, is_uid_char c = true) s → 10%N ∉ s.
Proof.
  intros H Hin. rewrite Forall_forall in H. by apply H in Hin.
Qed.

Lemma form_safe_no_LF s : Forall (λ c, is_form_safe c = true) s → 10%N ∉ s.
Proof.
  intros H Hin. rewrite Forall_forall in H. by apply H in Hin.
Qed.

Ltac no_LF_literal :=
  apply (bool_decide_eq_true_1 _); vm_compute; reflexivity.

Lemma optional_line_no_LF name render field :
  10%N ∉ name → (∀ v, 10%N ∉ v → 10%N ∉ render v) →
  10%N ∉ default [] field →
  Forall (λ l, 10%N ∉ l) (optional_line name render field).
Proof.
  intros Hn Hr Hf. destruct field as [[|c v]|]; cbn [optional_line];
    try apply Forall_nil_2.
  apply Forall_cons_2; [|apply Forall_nil_2].
  apply not_elem_of_app. split; [done|]. by apply Hr.
Qed.

Lemma optional_line_escaped_no_LF name field :
  10%N ∉ name →
  Forall (λ l, 10%N ∉ l) (optional_line name escapeICSText field).
Proof.
  intros Hn. destruct field as [[|c v]|]; cbn [optional_line];
    try apply Forall_nil_2.
  apply Forall_cons_2; [|apply Forall_nil_2].
  apply not_elem_of_app. split; [done|]. apply escapeICSText_no_LF.
Qed.

Lemma generateUID_no_LF ev env :
  10%N ∉ random_digits env → 10%N ∉ generateUID ev env.
Proof.
  intros Hr. unfold generateUID. cbv zeta. rewrite !not_elem_of_app.
  split; [apply uid_chars_no_LF, number_toString_chars|].
  split; [no_LF_literal|]. split; [done|]. split; [no_LF_literal|].
  split; [apply uid_chars_no_LF, toString36_chars|no_LF_literal].
Qed.

Lemma generateICS_lines_no_LF tza ev env :
  10%N ∉ random_digits env → 10%N ∉ default [] (event_url ev) →
  Forall (λ l, 10%N ∉ l) (generateICS_lines tza ev env).
Proof.
  intros Hr Hu. unfold generateICS_lines.
  apply Forall_app_2; [|apply Forall_app_2; [|apply Forall_app_2;
    [|apply Forall_app_2]]].
  - do 6 (apply Forall_cons_2; [no_LF_literal|]).
    apply Forall_cons_2.
    { apply not_elem_of_app. split; [no_LF_literal|].
      by apply generateUID_no_LF. }
    apply Forall_cons_2.
    { rewrite !not_elem_of_app. split; [no_LF_literal|].
      split; [apply form_safe_no_LF, formatISODate_safe|no_LF_literal]. }
    apply Forall_cons_2.
    { apply not_elem_of_app. split; [no_LF_literal|].
      apply form_safe_no_LF, formatISODate_safe. }
    apply Forall_cons_2.
    { apply not_elem_of_app. split; [no_LF_literal|].
      apply form_safe_no_LF, formatISODate_safe. }
    apply Forall_cons_2; [|apply Forall_nil_2].
    apply not_elem_of_app. split; [no_LF_literal|].
    apply escapeICSText_no_LF.
  - apply optional_line_escaped_no_LF. no_LF_literal.
  - apply optional_line_no_LF; [no_LF_literal|done|done].
  - apply optional_line_escaped_no_LF. no_LF_literal.
  - do 2 (apply Forall_cons_2; [no_LF_literal|]). apply Forall_nil_2.
Qed.

(** C5. A generated file is its field lines, each folded as the
    specification says, joined by CRLF: a field line of at most 75
    characters as it is, a longer one as its first 75 characters followed
    by continuation lines of a single space and the next 74 characters
    each, the last one with what is left. No physical line of the file is
    longer than 75 characters. When neither the random part of the
    identifier nor the address of the event holds a line feed (no other
    field can bring one into the file), the physical lines of the file are
    exactly these folded lines, in the order of the fields. *)
Theorem generateICS_line_folding tza ev env :
  generateICS tza ev env
  = join CRLF (concat (map spec_fold (generateICS_lines tza ev env)))
  ∧ Forall (λ l, (length l ≤ 75)%nat)
      (physical_lines (generateICS tza ev env))
  ∧ (10%N ∉ random_digits env → 10%N ∉ default [] (event_url ev) →
     physical_lines (generateICS tza ev env)
     = concat (map spec_fold (generateICS_lines tza ev env))).
Proof.
  split; [apply generateICS_spec_fold|].
  split; [apply physical_lines_join_folded|].
  intros Hr Hu. rewrite generateICS_spec_fold.
  pose proof (generateICS_lines_no_LF tza ev env Hr Hu) as Hno.
  assert (Forall (λ l, 10%N ∉ l)
            (concat (map spec_fold (generateICS_lines tza ev env)))) as Hall.
  { apply Forall_concat, Forall_fmap. eapply Forall_impl; [exact Hno|].
    intros l Hl. by apply spec_fold_no_LF. }
  destruct (concat (map spec_fold (generateICS_lines tza ev env)))
    as [|chunk chunks] eqn:E.
  - exfalso. revert E. unfold generateICS_lines. cbn [app map concat].
    pose proof (spec_fold_nonempty (str "BEGIN:VCALENDAR")) as Hne.
    by destruct (spec_fold (str "BEGIN:VCALENDAR")).
  - by apply physical_lines_chunks.
Qed.

Lemma generateICS_line_folding_witness :
  physical_lines (generateICS New_York sample_event sample_environment)
  = concat
      (map spec_fold (generateICS_lines New_York sample_event
                        sample_environment)).
Proof.
  destruct (generateICS_line_folding New_York sample_event sample_environment)
    as (_ & _ & H).
  apply H.
  - apply (bool_decide_eq_true_1 _). vm_compute. reflexivity.
  - apply (bool_decide_eq_true_1 _). vm_compute. reflexivity.
Defined.
